(** * Blockchain account indexing: ledger, bounded ranking, callback heap

    A shallow embedding of [BlockchainAccountIndexing.cpp].

    - [int] fields are integers in [Z]; no arithmetic is done on tokens or
      versions, only comparisons. The one [int] sum of the program,
      [callbackTimeMs + getRandomDelay()], and the 64-bit sum of the clock
      and the delay wrap around as the machine integers do ([wrap]).
    - [std::unordered_map] is a [gmap]; [std::vector] is a [list] read with
      [!!] and written with [<[i:=x]>].
    - A [chrono::system_clock::time_point] is its tick count (nanoseconds)
      in [Z]. The clock and the random jitter are inputs of the functions
      that read them.
    - An operation whose behaviour C++ leaves undefined (reading outside a
      vector, [pop] on an empty queue, reading a destroyed element) yields
      [None]; everything else yields [Some] of the new state.
    - [std::push_heap] and [std::pop_heap] follow the algorithm of
      libstdc++ ([bits/stl_heap.h]); the Makefile builds with [g++].
    - Reading and parsing the JSON file and the lines written to
      [cout] are left out, except the notifications a sweep prints and
      the lines of [printHighestTokenValueAccounts]. *)

From stdpp Require Import gmap strings list fin_maps.

Local Open Scope Z_scope.

(** ** Accounts and keys *)

Record Account := mkAccount {
  id : string;
  accountType : string;
  data : gmap string Z;
  tokens : Z;
  version : Z;
  callbackTimeMs : Z
}.

(** [AccountKey]: the pair (id, version). *)
Abbreviation AccountKey := (string * Z)%type (only parsing).

Definition key_of (a : Account) : AccountKey := (id a, version a).

(** [AccountTokenComparator]: [a1.tokens > a2.tokens]. *)
Definition AccountTokenComparator (a1 a2 : Account) : bool :=
  tokens a2 <? tokens a1.

(** [Account::operator<]: [tokens < other.tokens]. *)
Definition Account_lt (a other : Account) : bool :=
  tokens a <? tokens other.

(** A scheduled callback: (fire time, account). *)
Abbreviation Callback := (Z * Account)%type (only parsing).

(** [AccountTimeComparator]: [a.first > b.first]. *)
Definition AccountTimeComparator (a b : Callback) : bool :=
  b.1 <? a.1.

(** [operator<] of [std::pair<time_point, Account>], the comparison that
    [std::pop_heap] uses when it is given no comparator. *)
Definition Callback_lt (a b : Callback) : bool :=
  (a.1 <? b.1) || (negb (b.1 <? a.1) && Account_lt a.2 b.2).

(** ** Heap primitives over a vector *)

Section Heap.
Context {T : Type} (comp : T -> T -> bool).

(** [std::__push_heap(first, holeIndex, topIndex, value, comp)].
    The hole moves to its parent while the parent compares below
    [value]. The hole strictly decreases, so [fuel >= holeIndex] is
    enough; with no fuel left the hole is at the root and the loop
    condition is false. *)
Fixpoint push_heap_loop (fuel : nat) (c : list T) (holeIndex topIndex : nat)
    (value : T) : list T :=
  match fuel with
  | O => <[holeIndex := value]> c
  | S fuel' =>
      let parent := ((holeIndex - 1) / 2)%nat in
      if (topIndex <? holeIndex)%nat then
        match c !! parent with
        | Some p =>
            if comp p value
            then push_heap_loop fuel' (<[holeIndex := p]> c) parent topIndex value
            else <[holeIndex := value]> c
        | None => <[holeIndex := value]> c
        end
      else <[holeIndex := value]> c
  end.

Definition push_heap_aux (c : list T) (holeIndex topIndex : nat) (value : T) : list T :=
  push_heap_loop holeIndex c holeIndex topIndex value.

(** [std::push_heap(first, last, comp)]: the last element is the new one. *)
Definition push_heap (c : list T) : list T :=
  match last c with
  | Some value => push_heap_aux c (length c - 1) 0 value
  | None => c
  end.

(** The first loop of [std::__adjust_heap]: the hole moves down to the
    child that does not compare below its sibling. Returns the vector
    and the final hole (which equals the final [secondChild]). *)
Fixpoint adjust_heap_loop (fuel : nat) (c : list T) (holeIndex len : nat)
    : list T * nat :=
  match fuel with
  | O => (c, holeIndex)
  | S fuel' =>
      if (holeIndex <? (len - 1) / 2)%nat then
        let right := (2 * (holeIndex + 1))%nat in
        match c !! right, c !! (right - 1)%nat with
        | Some r, Some l =>
            let child := if comp r l then (right - 1)%nat else right in
            let v := if comp r l then l else r in
            adjust_heap_loop fuel' (<[holeIndex := v]> c) child len
        | _, _ => (c, holeIndex)
        end
      else (c, holeIndex)
  end.

(** [std::__adjust_heap(first, holeIndex, len, value, comp)]; [pop_heap],
    its only caller here, passes [len >= 1]. *)
Definition adjust_heap (c : list T) (holeIndex len : nat) (value : T) : list T :=
  let '(c1, hole1) := adjust_heap_loop len c holeIndex len in
  let '(c2, hole2) :=
    if Nat.even len && (hole1 =? (len - 2) / 2)%nat then
      let second := (2 * (hole1 + 1))%nat in
      match c1 !! (second - 1)%nat with
      | Some l => (<[hole1 := l]> c1, (second - 1)%nat)
      | None => (c1, hole1)
      end
    else (c1, hole1) in
  push_heap_aux c2 hole2 holeIndex value.

(** [std::pop_heap(first, last, comp)]: the first element goes to the
    last slot and the old last element is sifted in from the root. *)
Definition pop_heap (c : list T) : list T :=
  if (1 <? length c)%nat then
    let n := (length c - 1)%nat in
    match c !! n, c !! 0%nat with
    | Some value, Some top => adjust_heap (<[n := top]> c) 0 n value
    | _, _ => c
    end
  else c.

(** [vector::pop_back] on a non-empty vector. *)
Definition pop_back (c : list T) : list T := take (length c - 1) c.
End Heap.

(** ** [std::priority_queue<Account, vector<Account>, AccountTokenComparator>] *)

Abbreviation PQ := (list Account) (only parsing).

Definition pq_push (pq : PQ) (a : Account) : PQ :=
  push_heap AccountTokenComparator (pq ++ [a]).

(** [top()] and [pop()] are undefined on an empty queue. *)
Definition pq_top (pq : PQ) : option Account := head pq.

Definition pq_pop (pq : PQ) : option PQ :=
  match pq with
  | [] => None
  | _ => Some (pop_back (pop_heap AccountTokenComparator pq))
  end.

(** The loop shape shared by [insertAccountIntoPriorityQueue] and
    [removeAccountFromPriorityQueue]:
    [while (!pq.empty() && cond(pq.top())) { temp.push(pq.top()); pq.pop(); }].
    Each round pops one element, so [fuel = length pq] is enough; with no
    fuel left [pq] is empty and the loop condition is false. *)
Fixpoint drain_while (fuel : nat) (cond : Account -> bool) (pq temp : PQ)
    : option (PQ * PQ) :=
  match fuel with
  | O => Some (pq, temp)
  | S fuel' =>
      match pq_top pq with
      | Some t =>
          if cond t then
            pq' ← pq_pop pq;
            drain_while fuel' cond pq' (pq_push temp t)
          else Some (pq, temp)
      | None => Some (pq, temp)
      end
  end.

(** [AccountManager::insertAccountIntoPriorityQueue]. *)
Definition insertAccountIntoPriorityQueue (pq : PQ) (account : Account) : option PQ :=
  '(pq1, temp1) ← drain_while (length pq) (λ t, tokens account <? tokens t) pq [];
  let temp2 := pq_push temp1 account in
  '(_, temp3) ← drain_while (length pq1) (λ _, true) pq1 temp2;
  Some temp3.

(** [AccountManager::removeAccountFromPriorityQueue]. The [pq.pop()]
    between the two loops is undefined when no entry carries the id. *)
Definition removeAccountFromPriorityQueue (pq : PQ) (account : Account) : option PQ :=
  '(pq1, temp1) ← drain_while (length pq)
                    (λ t, bool_decide (id t ≠ id account)) pq [];
  pq2 ← pq_pop pq1;
  '(_, temp2) ← drain_while (length pq2) (λ _, true) pq2 temp1;
  Some temp2.

(** The scan of [ingestAccountUpdate] over the copy [jt]: pops until the
    top carries the id. Returns [accountFound] and what is left of [jt].
    [fuel = length jt] is enough, as for [drain_while]. *)
Fixpoint scan_queue (fuel : nat) (jt : PQ) (i : string) : option (bool * PQ) :=
  match fuel with
  | O => Some (false, jt)
  | S fuel' =>
      match pq_top jt with
      | Some t =>
          if bool_decide (id t = i) then Some (true, jt)
          else jt' ← pq_pop jt; scan_queue fuel' jt' i
      | None => Some (false, jt)
      end
  end.

(** ** [CallbackManager] *)

Record CallbackManager := mkCallbackManager {
  callbacks : list Callback;
  indexMap : gmap string nat
}.

(** [CallbackManager::updateIndexMap]. The [int] positions of the index
    are natural numbers: the program only stores positions inside the
    vector. *)
Definition updateIndexMap (account : Account) (index : nat) (cm : CallbackManager)
    : CallbackManager :=
  mkCallbackManager (callbacks cm) (<[id account := index]> (indexMap cm)).

(** [CallbackManager::removeAtIndex]. On an empty vector [size() - 1]
    wraps to the largest [size_t], the first branch is taken and
    [callbacks[index]] is outside the vector; the same holds for any
    [index >= size()]. *)
Definition removeAtIndex (index : nat) (cm : CallbackManager) : option CallbackManager :=
  let cbs := callbacks cm in
  let n := length cbs in
  if bool_decide (n = 0%nat) then None
  else if bool_decide (index ≠ (n - 1)%nat) then
    target ← cbs !! index;
    back ← cbs !! (n - 1)%nat;
    let cbs1 := <[(n - 1)%nat := target]> (<[index := back]> cbs) in
    let cm1 := updateIndexMap back.2 index (mkCallbackManager cbs1 (indexMap cm)) in
    let cbs2 := pop_heap AccountTimeComparator cbs1 in
    let cbs3 := pop_back cbs2 in
    let cbs4 := push_heap AccountTimeComparator cbs3 in
    Some (mkCallbackManager cbs4 (indexMap cm1))
  else Some (mkCallbackManager (pop_back cbs) (indexMap cm)).

(** [CallbackManager::scheduleCallback]. *)
Definition scheduleCallback (account : Account) (callbackTime : Z) (cm : CallbackManager)
    : CallbackManager :=
  let cbs1 := callbacks cm ++ [(callbackTime, account)] in
  let cm1 := updateIndexMap account (length cbs1 - 1)
               (mkCallbackManager cbs1 (indexMap cm)) in
  mkCallbackManager (push_heap AccountTimeComparator cbs1) (indexMap cm1).

(** [CallbackManager::cancelCallback]. *)
Definition cancelCallback (account : Account) (cm : CallbackManager)
    : option CallbackManager :=
  match indexMap cm !! id account with
  | Some index =>
      removeAtIndex index (mkCallbackManager (callbacks cm) (delete (id account) (indexMap cm)))
  | None => Some cm
  end.

(** A fired notification as printed: (id, version). *)
Abbreviation Fired := (string * Z)%type (only parsing).

(** [CallbackManager::fireCallbacks]. [account] is a reference to
    [callbacks.front()]: the line is printed from the entry that fires,
    but after [pop_heap] (called without a comparator, so with
    [operator<] of the pair) and [pop_back] the reference names whatever
    stands first in the vector, and that id is erased from the index. When
    the vector has become empty the reference names a destroyed element.
    Returns the new state and the notifications in firing order. Each
    round pops one entry, so [fuel = length callbacks] is enough; with no
    fuel left the vector is empty and the loop condition is false. *)
Fixpoint fireCallbacks_loop (fuel : nat) (currentTime : Z) (cm : CallbackManager)
    : option (CallbackManager * list Fired) :=
  match fuel with
  | O => Some (cm, [])
  | S fuel' =>
      match head (callbacks cm) with
      | Some front =>
          if front.1 <=? currentTime then
            let ev : Fired := (id front.2, version front.2) in
            let cbs1 := pop_back (pop_heap Callback_lt (callbacks cm)) in
            account ← head cbs1;
            let cm1 := mkCallbackManager cbs1 (delete (id account.2) (indexMap cm)) in
            '(cm2, evs) ← fireCallbacks_loop fuel' currentTime cm1;
            Some (cm2, ev :: evs)
          else Some (cm, [])
      | None => Some (cm, [])
      end
  end.

Definition fireCallbacks (currentTime : Z) (cm : CallbackManager)
    : option (CallbackManager * list Fired) :=
  fireCallbacks_loop (length (callbacks cm)) currentTime cm.

(** ** [AccountIndexer] *)

Record AccountIndexer := mkAccountIndexer {
  highestTokenAccounts : gmap string PQ;
  indexedAccounts : gmap AccountKey Account
}.

Definition indexAccount (account : Account) (ix : AccountIndexer) : AccountIndexer :=
  mkAccountIndexer (highestTokenAccounts ix)
                   (<[key_of account := account]> (indexedAccounts ix)).

Definition removeAccount (account : Account) (ix : AccountIndexer) : AccountIndexer :=
  mkAccountIndexer (highestTokenAccounts ix)
                   (delete (key_of account) (indexedAccounts ix)).

Definition setHighestTokens (accType : string) (pq : PQ) (ix : AccountIndexer)
    : AccountIndexer :=
  mkAccountIndexer (<[accType := pq]> (highestTokenAccounts ix)) (indexedAccounts ix).

(** ** [AccountManager] *)

Record AccountManager := mkAccountManager {
  callbackManager : CallbackManager;
  accountIndexer : AccountIndexer
}.

Definition INT_MIN : Z := - 2 ^ 31.
Definition INT_MAX : Z := 2 ^ 31 - 1.

(** [AccountManager::searchAndFilterAccounts]. An empty [accountType]
    disables the type filter. The iteration order of the unordered map is
    that of [map_to_list]. *)
Definition searchAndFilterAccounts (accType : string) (minTokens maxTokens : Z)
    (m : AccountManager) : list Account :=
  filter (λ account : Account,
            ¬ (accType ≠ "" ∧ accountType account ≠ accType) ∧
            ¬ (tokens account < minTokens ∨ tokens account > maxTokens))
         ((map_to_list (indexedAccounts (accountIndexer m))).*2).

(** The capacity of a ranking: the literal [3] of [ingestAccountUpdate]. *)
Definition K : nat := 3.

(** Two's complement wrap-around into the signed range of [w] bits. *)
Definition wrap (w z : Z) : Z := (z + 2 ^ (w - 1)) mod 2 ^ w - 2 ^ (w - 1).

(** The fire time [ingestAccountUpdate] computes for an update,
    [system_clock::now() + milliseconds(callbackTimeMs + getRandomDelay())].
    The delay is the sum of two [int]s, which the [g++] build takes in
    32 bits with wrap-around. [milliseconds] and the clock count in
    64-bit integers; one millisecond is 10^6 ticks of the clock. *)
Definition fireTime (now jitter : Z) (account : Account) : Z :=
  wrap 64 (now + 1000000 * wrap 32 (callbackTimeMs account + jitter)).

(** The second half of [ingestAccountUpdate], from [indexAccount] on. *)
Definition accept (now jitter : Z) (account : Account) (m : AccountManager)
    : option AccountManager :=
  let ix1 := indexAccount account (accountIndexer m) in
  let highestTokensForType :=
    default [] (highestTokenAccounts ix1 !! accountType account) in
  pq1 ← insertAccountIntoPriorityQueue highestTokensForType account;
  pq2 ← (if (K <? length pq1)%nat then pq_pop pq1 else Some pq1);
  let ix2 := setHighestTokens (accountType account) pq2 ix1 in
  let callbackTime := fireTime now jitter account in
  Some (mkAccountManager
          (scheduleCallback account callbackTime (callbackManager m)) ix2).

(** [AccountManager::ingestAccountUpdate]. *)
Definition ingestAccountUpdate (now jitter : Z) (account : Account) (m : AccountManager)
    : option AccountManager :=
  match highestTokenAccounts (accountIndexer m) !! accountType account with
  | Some tokenAccounts =>
      '(accountFound, jt) ← scan_queue (length tokenAccounts) tokenAccounts (id account);
      if accountFound : bool then
        top ← pq_top jt;
        if version account <=? version top then Some m
        else
          cm1 ← cancelCallback top (callbackManager m);
          let ix1 := removeAccount top (accountIndexer m) in
          pq1 ← removeAccountFromPriorityQueue tokenAccounts account;
          let ix2 := setHighestTokens (accountType account) pq1 ix1 in
          accept now jitter account (mkAccountManager cm1 ix2)
      else accept now jitter account m
  | None => accept now jitter account m
  end.

(** The state of a default-constructed [AccountManager]. *)
Definition emptyManager : AccountManager :=
  mkAccountManager (mkCallbackManager [] ∅) (mkAccountIndexer ∅ ∅).

(** What the loop of [processAccountUpdates] does to the manager, one
    call at a time: an [ingestAccountUpdate] (with the clock and the
    jitter it reads) or a [fireCallbacks] sweep (with the clock it is
    given). The printed notifications of a sweep are dropped here. *)
Inductive Step :=
| Ingest (now jitter : Z) (account : Account)
| Sweep (currentTime : Z).

Definition step (s : Step) (m : AccountManager) : option AccountManager :=
  match s with
  | Ingest now jitter account => ingestAccountUpdate now jitter account m
  | Sweep currentTime =>
      '(cm, _) ← fireCallbacks currentTime (callbackManager m);
      Some (mkAccountManager cm (accountIndexer m))
  end.

Fixpoint run (ss : list Step) (m : AccountManager) : option AccountManager :=
  match ss with
  | [] => Some m
  | s :: ss' => m' ← step s m; run ss' m'
  end.

(** The loop of [processAccountUpdates] over parsed updates: each update
    is ingested and followed by a sweep. An input is the update with the
    clock and jitter of its ingestion and the clock of its sweep. *)
Definition processAccountUpdates (accountUpdates : list (Account * Z * Z * Z))
    (m : AccountManager) : option AccountManager :=
  run (flat_map (λ '(account, now, jitter, sweepTime),
                   [Ingest now jitter account; Sweep sweepTime])
                accountUpdates) m.

(** The accounts a run ingests, in order. *)
Definition ingested (ss : list Step) : list Account :=
  omap (λ s, match s with Ingest _ _ a => Some a | Sweep _ => None end) ss.

(** A run without sweeps. *)
Definition ingestOnly (ss : list Step) : Prop :=
  Forall (λ s, match s with Ingest _ _ _ => True | Sweep _ => False end) ss.

(** * Vocabulary of the statements *)

Definition parent (i : nat) : nat := ((i - 1) / 2)%nat.

(** What [std::is_heap] checks for a comparator [comp x y = (key y <? key x)]:
    no parent compares below its child. *)
Definition heap_ordered {T : Type} (key : T -> Z) (c : list T) : Prop :=
  ∀ i x p, (0 < i)%nat -> c !! i = Some x -> c !! parent i = Some p ->
           key p <= key x.

(** A ranking queue whose vector is a heap with the least tokens first. *)
Definition pq_heap (pq : PQ) : Prop := heap_ordered tokens pq.

(** Every recorded index is inside the vector. *)
Definition index_in_range (cm : CallbackManager) : Prop :=
  ∀ i idx, indexMap cm !! i = Some idx -> (idx < length (callbacks cm))%nat.

(** What the insert and the size check of the accept path make of the
    entries [l] (the update and the queue before): all of them when they
    fit, and otherwise all but one of least tokens. *)
Definition evicted (l pq2 : PQ) : Prop :=
  ((length l <= K)%nat ∧ pq2 ≡ₚ l) ∨
  ((K < length l)%nat ∧
   ∃ e, l ≡ₚ e :: pq2 ∧ ∀ x, x ∈ l -> tokens e <= tokens x).

(** The entries ranked under a category; none when the category has no
    queue yet. *)
Definition ranked_in (ix : AccountIndexer) (accType : string) : PQ :=
  default [] (highestTokenAccounts ix !! accType).

Definition ranked (m : AccountManager) (accType : string) : PQ :=
  ranked_in (accountIndexer m) accType.

(** The state in which the supersede path calls [accept]: the old
    snapshot [e] is out of the ledger and the ranking of the type is [r]. *)
Definition superseded (m : AccountManager) (cm1 : CallbackManager)
    (accType : string) (e : Account) (r : PQ) : AccountManager :=
  mkAccountManager cm1
    (mkAccountIndexer (<[accType := r]> (highestTokenAccounts (accountIndexer m)))
                      (delete (key_of e) (indexedAccounts (accountIndexer m)))).

(** Every ranking holds at most [K] entries, with distinct ids, all of
    the ranking's type. *)
Definition ranking_ok (m : AccountManager) : Prop :=
  ∀ accType pq,
    highestTokenAccounts (accountIndexer m) !! accType = Some pq ->
    (length pq <= K)%nat ∧ NoDup (id <$> pq) ∧
    ∀ a, a ∈ pq -> accountType a = accType.

(** What C8 asks of the callback heap: no two pending entries carry the
    same id. *)
Definition one_pending_per_id (cm : CallbackManager) : Prop :=
  NoDup ((λ c : Callback, id c.2) <$> callbacks cm).

(** What C2 asks of the ledger: no two keys with the same id. *)
Definition ledger_one_per_id (m : AccountManager) : Prop :=
  ∀ k1 k2 : AccountKey,
    is_Some (indexedAccounts (accountIndexer m) !! k1) ->
    is_Some (indexedAccounts (accountIndexer m) !! k2) ->
    k1.1 = k2.1 -> k1 = k2.

(** A heap with a hole, as [std::__adjust_heap] sees it while the hole
    moves down: every edge that does not touch the hole is ordered, and
    the parent of the hole is not above the children of the hole. *)
Definition heap_with_hole {T : Type} (key : T -> Z) (c : list T) (hole : nat) : Prop :=
  (∀ i x p, (0 < i)%nat -> i ≠ hole -> parent i ≠ hole ->
            c !! i = Some x -> c !! parent i = Some p -> key p <= key x) ∧
  (∀ i x p, (0 < hole)%nat -> (0 < i)%nat -> parent i = hole ->
            c !! i = Some x -> c !! parent hole = Some p -> key p <= key x).

(** The identifiers the ledger holds a snapshot of. *)
Definition ledger_ids (m : AccountManager) : list string :=
  (λ kv : string * Z * Account, kv.1.1) <$> map_to_list (indexedAccounts (accountIndexer m)).

(** The identifiers ranked under a category. *)
Definition ranked_ids (m : AccountManager) (accType : string) : list string :=
  id <$> ranked m accType.

(** The update [account] returns unranked to the state [m]: the ledger
    holds a snapshot of its identifier, but the ranking of its category
    does not hold the identifier (it was evicted, or it was last seen
    under another category). [ingestAccountUpdate] looks only into the
    ranking, so it takes such an update for a new identifier. *)
Definition returns_unranked (m : AccountManager) (account : Account) : bool :=
  bool_decide (id account ∈ ledger_ids m) &&
  bool_decide (id account ∉ ranked_ids m (accountType account)).

(** Some [Ingest] step of the run of [ss] from [m] carries the
    identifier [i] and meets a state in which [bad] holds of its update. *)
Fixpoint some_ingest (bad : AccountManager -> Account -> bool) (i : string)
    (ss : list Step) (m : AccountManager) : bool :=
  match ss with
  | [] => false
  | s :: ss' =>
      match s with
      | Ingest _ _ account => bool_decide (id account = i) && bad m account
      | Sweep _ => false
      end
      || match step s m with
         | Some m' => some_ingest bad i ss' m'
         | None => false
         end
  end.

(** The pending callbacks of identifier [i]. *)
Definition pending (i : string) (cm : CallbackManager) : list Callback :=
  filter (λ c : Callback, id c.2 = i) (callbacks cm).

(** The last slot of the callback vector holds an entry of identifier
    [i], and the index records that slot for [i]: there [removeAtIndex]
    takes its second branch, a plain [pop_back]. *)
Definition in_last_slot (i : string) (cm : CallbackManager) : bool :=
  match last (callbacks cm) with
  | Some c =>
      bool_decide (id c.2 = i) &&
      bool_decide (indexMap cm !! i = Some (length (callbacks cm) - 1)%nat)
  | None => false
  end.

(** The ranking of the update's category holds its identifier with a
    lower version: the update supersedes. *)
Definition supersedes (m : AccountManager) (account : Account) : bool :=
  bool_decide (Exists (λ e, id e = id account ∧ version e < version account)
                      (ranked m (accountType account))).

(** An update of an identifier with a pending callback for which the
    scheduler is not left with one entry by design and by
    [removeAtIndex]'s second branch: either the ranking of the category
    does not hold the identifier, and the update is scheduled with no
    cancel; or the update supersedes and the pending entry is not in the
    last slot, the only place from which [removeAtIndex] takes the entry
    it is asked for. *)
Definition cancel_misses (m : AccountManager) (account : Account) : bool :=
  match pending (id account) (callbackManager m) with
  | [] => false
  | _ =>
      bool_decide (id account ∉ ranked_ids m (accountType account)) ||
      (supersedes m account && negb (in_last_slot (id account) (callbackManager m)))
  end.

(** The ledger, seen from identifier [i], after the updates [seen]: at
    most one key of [i]; a ranked entry of [i] is the ledger's entry; and
    for every update of [i] seen the ledger holds a snapshot of [i] with
    at least its version. *)
Definition ledger_tracks (i : string) (seen : list Account) (m : AccountManager)
    : Prop :=
  let ledger := indexedAccounts (accountIndexer m) in
  (∀ k1 k2 : AccountKey, k1.1 = i -> k2.1 = i ->
     is_Some (ledger !! k1) -> is_Some (ledger !! k2) -> k1 = k2) ∧
  (∀ c e, e ∈ ranked m c -> id e = i -> ledger !! key_of e = Some e) ∧
  (∀ b, b ∈ seen -> id b = i ->
     ∃ x, ledger !! key_of x = Some x ∧ id x = i ∧ version b <= version x).

(** * Sample runs and states *)

(** Sample accounts for the closed instances below. *)
Definition sample (i accType : string) (tok ver delay : Z) : Account :=
  mkAccount i accType ∅ tok ver delay.

(** Three versions of one identifier, arriving as 1, 3, 2. *)
Definition stream_one_id : list Step :=
  [ Ingest 0 0 (sample "account1" "user" 100 1 1000);
    Ingest 5 7 (sample "account1" "user" 50 3 1000);
    Ingest 9 2 (sample "account1" "user" 70 2 1000) ].

Definition state_one_id : AccountManager :=
  default emptyManager (run stream_one_id emptyManager).

(** Three identifiers of one category: a full ranking. *)
Definition stream_three : list Step :=
  [ Ingest 0 0 (sample "B" "user" 20 1 10);
    Ingest 0 0 (sample "C" "user" 30 2 20);
    Ingest 0 0 (sample "D" "user" 40 2 20) ].

Definition state_three : AccountManager :=
  default emptyManager (run stream_three emptyManager).

(** Four identifiers of one category: "A", of least tokens, is evicted. *)
Definition stream_four : list Step :=
  [ Ingest 0 0 (sample "A" "user" 1 5 5);
    Ingest 0 0 (sample "B" "user" 2 1 10);
    Ingest 0 0 (sample "C" "user" 3 2 20);
    Ingest 0 0 (sample "D" "user" 4 2 20) ].

Definition state_four : AccountManager :=
  default emptyManager (run stream_four emptyManager).

(** The same, followed by an older version of the evicted "A". *)
Definition stream_five : list Step :=
  [ Ingest 0 0 (sample "A" "user" 1 5 5);
    Ingest 0 0 (sample "B" "user" 2 1 10);
    Ingest 0 0 (sample "C" "user" 3 2 20);
    Ingest 0 0 (sample "D" "user" 4 2 20);
    Ingest 0 0 (sample "A" "user" 7 1 20) ].

Definition state_five : AccountManager :=
  default emptyManager (run stream_five emptyManager).

(** One identifier under two categories. *)
Definition stream_two_types : list Step :=
  [ Ingest 0 0 (sample "A" "user" 1 1 5);
    Ingest 0 0 (sample "A" "admin" 1 2 5) ].

(** Two identifiers of one category, then a higher version of the first. *)
Definition stream_two_ids : list Step :=
  [ Ingest 0 0 (sample "account1" "user" 100 1 1000);
    Ingest 0 0 (sample "account2" "user" 50 1 1000) ].

Definition state_two_ids : AccountManager :=
  default emptyManager (run stream_two_ids emptyManager).

Definition state_two_ids_next : AccountManager :=
  default emptyManager
    (ingestAccountUpdate 0 0 (sample "account1" "user" 50 3 1000) state_two_ids).

(** "A" at time 5, then "B" at time 10, scheduled on an empty manager. *)
Definition two_pending : CallbackManager :=
  scheduleCallback (sample "B" "user" 0 1 0) 10
    (scheduleCallback (sample "A" "user" 0 1 0) 5 (mkCallbackManager [] ∅)).

(** "A" at time 10, then "B" at time 5: [push_heap] moves "B" to the
    front. *)
Definition two_pending_sifted : CallbackManager :=
  scheduleCallback (sample "B" "user" 0 1 0) 5
    (scheduleCallback (sample "A" "user" 0 1 0) 10 (mkCallbackManager [] ∅)).

(** "A", "B" and "C" scheduled at times 1, 2 and 5. *)
Definition three_pending : CallbackManager :=
  scheduleCallback (sample "C" "user" 0 1 0) 5
    (scheduleCallback (sample "B" "user" 0 1 0) 2
       (scheduleCallback (sample "A" "user" 0 1 0) 1 (mkCallbackManager [] ∅))).

(** Two identifiers, a higher version of each, two more identifiers
    (the second identifier, of least tokens, is evicted), and a stale
    version of the first. *)
Definition stream_mixed : list Step :=
  [ Ingest 0 0 (sample "account1" "user" 100 1 1000);
    Ingest 1 0 (sample "account2" "user" 40 1 1000);
    Ingest 2 5 (sample "account1" "user" 50 3 1000);
    Ingest 3 0 (sample "account2" "user" 45 2 1000);
    Ingest 3 0 (sample "account3" "user" 60 1 1000);
    Sweep 4;
    Ingest 5 9 (sample "account4" "user" 70 1 1000);
    Ingest 6 0 (sample "account1" "user" 80 2 1000) ].

(** An identifier is evicted and returns with a higher version. *)
Definition stream_evicted_returns : list Step :=
  [ Ingest 0 0 (sample "A" "user" 1 1 5);
    Ingest 0 0 (sample "B" "user" 2 1 10);
    Ingest 0 0 (sample "C" "user" 3 1 20);
    Ingest 0 0 (sample "D" "user" 4 1 20);
    Ingest 0 0 (sample "A" "user" 7 2 20) ].

Definition state_mixed : AccountManager :=
  default emptyManager (run stream_mixed emptyManager).

(** * Further code and vocabulary *)

(** The fire time is the key of the callback heap. *)
Definition fire_time (c : Callback) : Z := c.1.

(** The callback vector is a heap with the earliest fire time first. *)
Definition time_heap (cm : CallbackManager) : Prop :=
  heap_ordered fire_time (callbacks cm).

(** What a sweep prints for an entry. *)
Definition notification (c : Callback) : Fired := (id c.2, version c.2).

(** What [printHighestTokenValueAccounts] prints for an account: id,
    version and tokens. *)
Definition line (a : Account) : string * Z * Z := (id a, version a, tokens a).

(** The inner loop of [printHighestTokenValueAccounts] over the copy
    [temp]: print the top, pop, until the copy is empty. [fuel = length
    temp] is enough, as for [drain_while]. *)
Fixpoint print_queue (fuel : nat) (temp : PQ) : option (list (string * Z * Z)) :=
  match fuel with
  | O => Some []
  | S fuel' =>
      match pq_top temp with
      | Some account =>
          temp' ← pq_pop temp;
          rest ← print_queue fuel' temp';
          Some (line account :: rest)
      | None => Some []
      end
  end.

(** [AccountManager::printHighestTokenValueAccounts]: for every account
    type, in the iteration order of the map, the header with the type and
    the lines of its queue. *)
Definition printHighestTokenValueAccounts (m : AccountManager)
    : option (list (string * list (string * Z * Z))) :=
  mapM (λ kv : string * PQ,
          lines ← print_queue (length kv.2) kv.2; Some (kv.1, lines))
       (map_to_list (highestTokenAccounts (accountIndexer m))).

(** Lines in non-decreasing order of tokens. *)
Definition ascending (lines : list (string * Z * Z)) : Prop :=
  ∀ i j l1 l2, (i < j)%nat -> lines !! i = Some l1 -> lines !! j = Some l2 ->
               l1.2 <= l2.2.

(** Every ranking queue is a heap with the least tokens first. *)
Definition rankings_heap (m : AccountManager) : Prop :=
  ∀ accType pq,
    highestTokenAccounts (accountIndexer m) !! accType = Some pq -> pq_heap pq.

(** The updates of one account type among [seen]. *)
Definition of_type (accType : string) (seen : list Account) : list Account :=
  filter (λ a, accountType a = accType) seen.

(** The ranking [pq] of an account type holds the [K] updates of highest
    tokens among [seen_c], the updates seen for the type: it is as long
    as [K] allows, made of updates seen, and no update left out has more
    tokens than a ranked one. *)
Definition holds_highest (seen_c pq : list Account) : Prop :=
  length pq = (K `min` length seen_c)%nat ∧
  NoDup (id <$> pq) ∧
  (∀ x, x ∈ pq -> x ∈ seen_c) ∧
  (∀ s x, s ∈ seen_c -> s ∉ pq -> x ∈ pq -> tokens s <= tokens x).

(** The accounts of the inputs of [processAccountUpdates]. *)
Definition accounts_of (accountUpdates : list (Account * Z * Z * Z)) : list Account :=
  (λ u, u.1.1.1) <$> accountUpdates.

(** A pending callback comes from an [Ingest] step of the run and
    carries the fire time computed there. *)
Definition scheduled_by (ss : list Step) (c : Callback) : Prop :=
  ∃ now jitter, Ingest now jitter c.2 ∈ ss ∧ c.1 = fireTime now jitter c.2.

(** * Facts about the heap primitives *)

Section HeapPerm.
Context {T : Type} (comp : T -> T -> bool).
Implicit Types (c : list T) (i j hole : nat) (v x : T).

Lemma cons_insert_perm c j x v :
  (j < length c)%nat -> v :: <[j := x]> c ≡ₚ x :: <[j := v]> c.
Proof.
  revert j. induction c as [|y c IH]; intros [|j] Hj; simpl in *; try lia.
  - apply perm_swap.
  - rewrite (perm_swap y v), (perm_swap y x). f_equiv. apply IH. lia.
Qed.

(** Moving the element of slot [i] to slot [j] and putting [v] where it
    was is the same, as a multiset, as putting [v] at [j]. *)
Lemma insert_swap_perm c i j x v :
  i ≠ j -> c !! i = Some x -> (j < length c)%nat ->
  <[i := v]> (<[j := x]> c) ≡ₚ <[j := v]> c.
Proof.
  revert i j. induction c as [|y c IH]; intros [|i] [|j] Hne Hi Hj;
    simpl in *; try done; try lia.
  - simplify_eq. apply cons_insert_perm. lia.
  - rewrite <- (list_insert_id c i x) at 2 by done.
    apply cons_insert_perm. by eapply lookup_lt_Some.
  - f_equiv. apply IH; [congruence | done | lia].
Qed.

Lemma push_heap_loop_length fuel c hole top v :
  length (push_heap_loop comp fuel c hole top v) = length c.
Proof.
  revert c hole. induction fuel as [|fuel IH]; intros c hole;
    cbn [push_heap_loop].
  - by rewrite length_insert.
  - repeat case_match; rewrite ?IH, ?length_insert; done.
Qed.

Lemma push_heap_loop_perm fuel c hole top v :
  (hole < length c)%nat ->
  push_heap_loop comp fuel c hole top v ≡ₚ <[hole := v]> c.
Proof.
  revert c hole. induction fuel as [|fuel IH]; intros c hole Hh;
    cbn [push_heap_loop]; [done|].
  destruct (top <? hole)%nat eqn:Hth; [|done].
  apply Nat.ltb_lt in Hth.
  destruct (c !! ((hole - 1) / 2)%nat) as [p|] eqn:Hp; [|done].
  destruct (comp p v); [|done].
  assert ((hole - 1) / 2 < hole)%nat as Hlt.
  { apply Nat.Div0.div_lt_upper_bound; lia. }
  rewrite IH by (rewrite length_insert; lia).
  apply insert_swap_perm; [lia | done | done].
Qed.

(** Slots above the hole are not written. *)
Lemma push_heap_loop_above fuel c hole top v j :
  (hole < j)%nat ->
  push_heap_loop comp fuel c hole top v !! j = c !! j.
Proof.
  revert c hole. induction fuel as [|fuel IH]; intros c hole Hj;
    cbn [push_heap_loop].
  - by rewrite list_lookup_insert_ne by lia.
  - assert ((hole - 1) / 2 <= hole)%nat as Hle.
    { transitivity (hole - 1)%nat; [apply Nat.Div0.div_le_upper_bound|]; lia. }
    repeat case_match; rewrite ?IH by lia;
      by rewrite list_lookup_insert_ne by lia.
Qed.

Lemma push_heap_length c : length (push_heap comp c) = length c.
Proof.
  unfold push_heap, push_heap_aux. case_match; [|done].
  apply push_heap_loop_length.
Qed.

Lemma push_heap_perm c : push_heap comp c ≡ₚ c.
Proof.
  unfold push_heap, push_heap_aux.
  destruct (last c) as [v|] eqn:Hl; [|done].
  assert (c ≠ []) as Hne by (intros ->; done).
  assert (0 < length c)%nat by (destruct c; simpl; [done|lia]).
  rewrite push_heap_loop_perm by lia.
  rewrite list_insert_id; [done|].
  rewrite last_lookup in Hl. by replace (length c - 1)%nat with (pred (length c)) by lia.
Qed.
End HeapPerm.

Section HeapPop.
Context {T : Type} (comp : T -> T -> bool).
Implicit Types (c : list T) (i j hole len : nat) (v x : T).

Lemma adjust_heap_loop_spec fuel c hole len c1 hole1 :
  adjust_heap_loop comp fuel c hole len = (c1, hole1) ->
  (hole < len)%nat -> (hole < length c)%nat ->
  length c1 = length c ∧ (hole1 < len)%nat ∧ (hole1 < length c)%nat ∧
  (∀ j, (len <= j)%nat -> c1 !! j = c !! j) ∧
  (∀ v, <[hole1 := v]> c1 ≡ₚ <[hole := v]> c).
Proof.
  revert c hole. induction fuel as [|fuel IH]; intros c hole Heq Hlen Hc;
    cbn [adjust_heap_loop] in Heq.
  { by simplify_eq. }
  destruct (hole <? (len - 1) / 2)%nat eqn:Hlt; [|by simplify_eq].
  apply Nat.ltb_lt in Hlt.
  destruct (c !! (2 * (hole + 1))%nat) as [r|] eqn:Hr; [|by simplify_eq].
  destruct (c !! (2 * (hole + 1) - 1)%nat) as [l|] eqn:Hl; [|by simplify_eq].
  assert (2 * ((len - 1) / 2) <= len - 1)%nat as Hdiv
    by (apply Nat.Div0.mul_div_le).
  pose proof (lookup_lt_Some _ _ _ Hr) as Hrlen.
  destruct (comp r l).
  - apply IH in Heq as (Hlen1 & Hh1 & Hh1c & Habove & Hperm);
      rewrite ?length_insert; try lia.
    rewrite length_insert in Hlen1, Hh1c.
    split_and!; try done.
    + intros j Hj. rewrite Habove by done. apply list_lookup_insert_ne. lia.
    + intros v. rewrite Hperm. apply insert_swap_perm; [lia | done | done].
  - apply IH in Heq as (Hlen1 & Hh1 & Hh1c & Habove & Hperm);
      rewrite ?length_insert; try lia.
    rewrite length_insert in Hlen1, Hh1c.
    split_and!; try done.
    + intros j Hj. rewrite Habove by done. apply list_lookup_insert_ne. lia.
    + intros v. rewrite Hperm. apply insert_swap_perm; [lia | done | done].
Qed.

Lemma adjust_heap_spec c hole len value :
  (hole < len)%nat -> (len <= length c)%nat ->
  length (adjust_heap comp c hole len value) = length c ∧
  (∀ j, (len <= j)%nat -> adjust_heap comp c hole len value !! j = c !! j) ∧
  adjust_heap comp c hole len value ≡ₚ <[hole := value]> c.
Proof.
  intros Hh Hlen. unfold adjust_heap, push_heap_aux.
  destruct (adjust_heap_loop comp len c hole len) as [c1 hole1] eqn:Hloop.
  apply adjust_heap_loop_spec in Hloop as (Hlen1 & Hh1 & Hh1c & Habove & Hperm);
    [|lia..].
  destruct (Nat.even len && (hole1 =? (len - 2) / 2)%nat) eqn:Heven.
  - apply andb_true_iff in Heven as [Heven Hh2]. apply Nat.eqb_eq in Hh2.
    assert (2 * ((len - 2) / 2) <= len - 2)%nat as Hdiv
      by (apply Nat.Div0.mul_div_le).
    assert (2 <= len)%nat.
    { destruct len as [|[|len]]; [lia | done | lia]. }
    destruct (c1 !! (2 * (hole1 + 1) - 1)%nat) as [l|] eqn:Hl.
    + rewrite push_heap_loop_length, length_insert.
      split_and!; [done | |].
      * intros j Hj. rewrite push_heap_loop_above by lia.
        rewrite list_lookup_insert_ne by lia. by apply Habove.
      * rewrite push_heap_loop_perm
          by (rewrite length_insert; by eapply lookup_lt_Some).
        rewrite <- Hperm. apply insert_swap_perm; [lia | done | lia].
    + rewrite push_heap_loop_length.
      split_and!; [done | |].
      * intros j Hj. rewrite push_heap_loop_above by lia. by apply Habove.
      * rewrite push_heap_loop_perm by lia. apply Hperm.
  - rewrite push_heap_loop_length.
    split_and!; [done | |].
    + intros j Hj. rewrite push_heap_loop_above by lia. by apply Habove.
    + rewrite push_heap_loop_perm by lia. apply Hperm.
Qed.

Lemma pop_heap_length c : length (pop_heap comp c) = length c.
Proof.
  unfold pop_heap. destruct (1 <? length c)%nat eqn:Hlt; [|done].
  apply Nat.ltb_lt in Hlt. repeat case_match; try done.
  destruct (adjust_heap_spec (<[(length c - 1)%nat := t0]> c) 0
              (length c - 1) t) as (-> & _); rewrite ?length_insert; lia.
Qed.

(** [pop_heap] puts the old first element last and leaves a
    rearrangement of the others in front of it. *)
Lemma pop_heap_cons x c :
  ∃ r, pop_heap comp (x :: c) = r ++ [x] ∧ r ≡ₚ c.
Proof.
  unfold pop_heap. destruct (1 <? length (x :: c))%nat eqn:Hlt.
  - apply Nat.ltb_lt in Hlt. simpl in Hlt.
    set (n := (length (x :: c) - 1)%nat).
    assert (n = length c) as Hn by (subst n; simpl; lia).
    destruct ((x :: c) !! n) as [value|] eqn:Hv.
    2:{ apply lookup_ge_None in Hv. simpl in Hv. lia. }
    change ((x :: c) !! 0%nat) with (Some x).
    destruct (adjust_heap_spec (<[n := x]> (x :: c)) 0 n value)
      as (Hlen & Habove & Hperm); rewrite ?length_insert; simpl; try lia.
    rewrite length_insert in Hlen. simpl in Hlen.
    set (res := adjust_heap comp (<[n := x]> (x :: c)) 0 n value) in *.
    assert (res !! n = Some x) as Hlast.
    { rewrite Habove by lia. apply list_lookup_insert_eq. simpl. lia. }
    exists (take n res). split.
    + rewrite <- (take_drop n res) at 1. f_equal.
      apply list_eq. intros [|k].
      * rewrite lookup_drop, Nat.add_0_r. done.
      * rewrite lookup_drop. simpl. apply lookup_ge_None. lia.
    + apply (Permutation_app_inv_r [x]).
      assert (take n res ++ [x] = res) as ->.
      { rewrite <- (take_drop n res) at 2. f_equal.
        apply list_eq. intros [|k].
        - rewrite lookup_drop, Nat.add_0_r. done.
        - rewrite lookup_drop. simpl. symmetry. apply lookup_ge_None. lia. }
      rewrite Hperm.
      rewrite insert_swap_perm with (x := x); [| lia | done | simpl; lia].
      rewrite list_insert_id by done.
      rewrite <- Permutation_cons_append. done.
  - apply Nat.ltb_ge in Hlt. destruct c; simpl in Hlt; [|lia].
    exists []. done.
Qed.
End HeapPop.

(** * Facts about the priority queue and the loops over it *)

Arguments pq_pop : simpl never.
Arguments pq_push : simpl never.

Lemma pop_back_snoc {T} (r : list T) (x : T) : pop_back (r ++ [x]) = r.
Proof.
  unfold pop_back. rewrite length_app. simpl.
  replace (length r + 1 - 1)%nat with (length r) by lia.
  by rewrite take_app_length.
Qed.

Lemma pq_push_perm (pq : PQ) a : pq_push pq a ≡ₚ a :: pq.
Proof.
  unfold pq_push. rewrite push_heap_perm. by rewrite <- Permutation_cons_append.
Qed.

Lemma pq_push_length (pq : PQ) a : length (pq_push pq a) = S (length pq).
Proof. by rewrite pq_push_perm. Qed.

(** [pop()] on a non-empty queue removes the element [top()] returns. *)
Lemma pq_pop_cons x (pq : PQ) : ∃ r, pq_pop (x :: pq) = Some r ∧ r ≡ₚ pq.
Proof.
  destruct (pop_heap_cons AccountTokenComparator x pq) as (r & Hr & Hperm).
  exists r. split; [|done]. unfold pq_pop. by rewrite Hr, pop_back_snoc.
Qed.

(** The loop always ends: it moves a batch [moved] of entries, all of
    which satisfy [cond], from [pq] to [temp], and stops with [pq] empty
    or with a top that fails [cond]. *)
Lemma drain_while_spec fuel cond (pq temp : PQ) :
  (length pq <= fuel)%nat ->
  ∃ pq1 temp1 moved,
    drain_while fuel cond pq temp = Some (pq1, temp1) ∧
    pq ≡ₚ moved ++ pq1 ∧ temp1 ≡ₚ moved ++ temp ∧
    Forall (λ t, cond t = true) moved ∧
    match pq_top pq1 with Some t => cond t = false | None => True end.
Proof.
  revert pq temp. induction fuel as [|fuel IH]; intros pq temp Hlen.
  - destruct pq; simpl in Hlen; [|lia].
    exists [], temp, []. simpl. done.
  - cbn [drain_while]. destruct pq as [|x pq]; cbn [pq_top head].
    { exists [], temp, []. simpl. done. }
    destruct (cond x) eqn:Hc.
    + destruct (pq_pop_cons x pq) as (r & -> & Hr). simpl.
      destruct (IH r (pq_push temp x)) as (pq1 & temp1 & moved & -> & Hpq & Htemp & Hall & Htop).
      { rewrite Hr. simpl in Hlen. lia. }
      exists pq1, temp1, (x :: moved). split_and!; try done.
      * simpl. by rewrite <- Hpq, Hr.
      * rewrite Htemp, pq_push_perm. simpl. by rewrite Permutation_middle.
      * by constructor.
    + exists (x :: pq), temp, []. simpl. by rewrite Hc.
Qed.

Lemma drain_all_spec (pq temp : PQ) :
  ∃ temp1, drain_while (length pq) (λ _, true) pq temp = Some ([], temp1) ∧
           temp1 ≡ₚ pq ++ temp.
Proof.
  destruct (drain_while_spec (length pq) (λ _, true) pq temp)
    as (pq1 & temp1 & moved & -> & Hpq & Htemp & _ & Htop); [done|].
  destruct pq1 as [|x pq1]; [|done].
  exists temp1. split; [done|]. rewrite Htemp, Hpq. by rewrite app_nil_r.
Qed.

Lemma insertAccountIntoPriorityQueue_perm (pq : PQ) account :
  ∃ r, insertAccountIntoPriorityQueue pq account = Some r ∧ r ≡ₚ account :: pq.
Proof.
  unfold insertAccountIntoPriorityQueue.
  destruct (drain_while_spec (length pq) (λ t, tokens account <? tokens t) pq [])
    as (pq1 & temp1 & moved & -> & Hpq & Htemp & _ & _); [done|]. simpl.
  destruct (drain_all_spec pq1 (pq_push temp1 account)) as (temp3 & -> & H3).
  exists temp3. split; [done|].
  rewrite H3, pq_push_perm, Htemp, Hpq, app_nil_r.
  rewrite <- Permutation_middle. f_equiv. apply Permutation_app_comm.
Qed.

(** When some entry carries the id, [removeAccountFromPriorityQueue]
    removes exactly one entry, and that entry carries the id. *)
Lemma removeAccountFromPriorityQueue_spec (pq : PQ) account :
  (∃ e, e ∈ pq ∧ id e = id account) ->
  ∃ r e, removeAccountFromPriorityQueue pq account = Some r ∧
         id e = id account ∧ pq ≡ₚ e :: r.
Proof.
  intros (e & He & Hid). unfold removeAccountFromPriorityQueue.
  destruct (drain_while_spec (length pq)
              (λ t, bool_decide (id t ≠ id account)) pq [])
    as (pq1 & temp1 & moved & -> & Hpq & Htemp & Hall & Htop); [done|]. simpl.
  destruct pq1 as [|x pq1].
  { exfalso. rewrite app_nil_r in Hpq. rewrite Hpq in He.
    rewrite Forall_forall in Hall. apply Hall in He.
    apply bool_decide_eq_true in He. done. }
  simpl in Htop. apply bool_decide_eq_false in Htop.
  assert (id x = id account) as Hx by (by destruct (decide (id x = id account))).
  destruct (pq_pop_cons x pq1) as (pq2 & -> & H2). simpl.
  destruct (drain_all_spec pq2 temp1) as (temp2 & -> & Ht2). simpl.
  exists temp2, x. split_and!; [done..|].
  rewrite Hpq, Ht2, Htemp, H2, app_nil_r.
  rewrite <- Permutation_middle. f_equiv. apply Permutation_app_comm.
Qed.

(** The scan finds the id exactly when some entry carries it, and then
    stops with such an entry on top. *)
Lemma scan_queue_spec fuel (jt : PQ) i :
  (length jt <= fuel)%nat ->
  (∃ jt' t, scan_queue fuel jt i = Some (true, jt') ∧
            pq_top jt' = Some t ∧ t ∈ jt ∧ id t = i) ∨
  (∃ jt', scan_queue fuel jt i = Some (false, jt') ∧ ∀ e, e ∈ jt -> id e ≠ i).
Proof.
  revert jt. induction fuel as [|fuel IH]; intros jt Hlen.
  - destruct jt; simpl in Hlen; [|lia]. right. exists []. split; [done|].
    intros e He. by apply elem_of_nil in He.
  - cbn [scan_queue]. destruct jt as [|x jt]; cbn [pq_top head].
    { right. exists []. split; [done|]. intros e He. by apply elem_of_nil in He. }
    case_bool_decide as Hx.
    + left. exists (x :: jt), x. split_and!; [done | done | | done].
      apply elem_of_cons. by left.
    + destruct (pq_pop_cons x jt) as (r & -> & Hr). simpl.
      destruct (IH r) as [(jt' & t & -> & Htop & Ht & Hid)|(jt' & -> & Hnone)].
      { rewrite Hr. simpl in Hlen. lia. }
      * left. exists jt', t. split_and!; try done.
        apply elem_of_cons. right. by rewrite <- Hr.
      * right. exists jt'. split; [done|]. intros e He.
        apply elem_of_cons in He as [->|He]; [done|].
        apply Hnone. by rewrite Hr.
Qed.

(** * Heap order

    For a comparator of the form [comp x y = (key y <? key x)] (the shape
    of both comparators of the program) a heap keeps the least key first. *)

Section HeapOrder.
Context {T : Type} (key : T -> Z) (comp : T -> T -> bool).
Hypothesis comp_key : ∀ x y, comp x y = (key y <? key x).
Implicit Types (c : list T) (i j hole : nat) (v x p : T).

Lemma parent_lt i : (0 < i)%nat -> (parent i < i)%nat.
Proof. intros. apply Nat.Div0.div_lt_upper_bound. lia. Qed.

Lemma heap_ordered_nil : heap_ordered key [].
Proof. intros i x p _ Hx. done. Qed.

Lemma heap_ordered_root_min c r x :
  heap_ordered key c -> c !! 0%nat = Some r -> x ∈ c -> key r <= key x.
Proof.
  intros Hheap Hr Hx. apply list_elem_of_lookup in Hx as [i Hi].
  revert x Hi. induction (lt_wf i) as [i _ IH]. intros x Hi.
  destruct (decide (i = 0%nat)) as [->|Hne].
  { rewrite Hr in Hi. simplify_eq. lia. }
  assert (parent i < i)%nat as Hlt by (apply parent_lt; lia).
  destruct (c !! parent i) as [p|] eqn:Hp.
  2:{ apply lookup_ge_None in Hp. apply lookup_lt_Some in Hi. lia. }
  transitivity (key p); [by eapply IH | eapply Hheap; [|done..]; lia].
Qed.

Lemma push_heap_loop_heap fuel c hole v :
  (hole <= fuel)%nat -> (hole < length c)%nat ->
  (∀ i x p, (0 < i)%nat -> i ≠ hole ->
     <[hole := v]> c !! i = Some x -> <[hole := v]> c !! parent i = Some p ->
     key p <= key x) ->
  (∀ i x p, (0 < hole)%nat -> (0 < i)%nat -> parent i = hole ->
     c !! i = Some x -> c !! parent hole = Some p -> key p <= key x) ->
  heap_ordered key (push_heap_loop comp fuel c hole 0 v).
Proof.
  revert c hole. induction fuel as [|fuel IH]; intros c hole Hfuel Hlen Hrest Hgrand;
    cbn [push_heap_loop].
  { intros i x p Hi. apply Hrest; lia. }
  destruct (0 <? hole)%nat eqn:Hpos.
  2:{ apply Nat.ltb_ge in Hpos. intros i x p Hi. apply Hrest; lia. }
  apply Nat.ltb_lt in Hpos. pose proof (parent_lt hole Hpos) as Hpar.
  fold (parent hole).
  destruct (c !! parent hole) as [q|] eqn:Hq.
  2:{ apply lookup_ge_None in Hq. lia. }
  rewrite comp_key. destruct (key v <? key q) eqn:Hcmp.
  - apply Z.ltb_lt in Hcmp.
    assert (∀ i x, (0 < i)%nat -> i ≠ hole -> parent i = parent hole ->
                   c !! i = Some x -> key q <= key x) as Hsib.
    { intros i x Hi Hne Hpi Hx. apply (Hrest i x q); [done..| |].
      - by rewrite list_lookup_insert_ne.
      - rewrite Hpi, list_lookup_insert_ne by lia. done. }
    apply IH; [lia | rewrite length_insert; lia | |].
    + intros i x p Hi Hne Hx Hp.
      rewrite list_lookup_insert_ne in Hx by done.
      destruct (decide (i = hole)) as [->|Hih].
      * rewrite list_lookup_insert_eq in Hx by done.
        rewrite list_lookup_insert_eq in Hp by (rewrite length_insert; lia).
        simplify_eq. lia.
      * rewrite list_lookup_insert_ne in Hx by done.
        destruct (decide (parent i = parent hole)) as [Hpp|Hpp].
        -- rewrite Hpp, list_lookup_insert_eq in Hp by (rewrite length_insert; lia).
           simplify_eq. specialize (Hsib i x Hi Hih Hpp Hx). lia.
        -- rewrite list_lookup_insert_ne in Hp by done.
           destruct (decide (parent i = hole)) as [Hph|Hph].
           ++ rewrite Hph, list_lookup_insert_eq in Hp by done. simplify_eq.
              by eapply Hgrand.
           ++ rewrite list_lookup_insert_ne in Hp by done.
              apply (Hrest i x p); [done..| |].
              ** by rewrite list_lookup_insert_ne.
              ** by rewrite list_lookup_insert_ne.
    + intros i x p Hpp Hi Hpi Hx Hp.
      pose proof (parent_lt _ Hpp) as Hpp'.
      rewrite list_lookup_insert_ne in Hp by lia.
      assert (key p <= key q) as Hpq.
      { apply (Hrest (parent hole) q p); [done | lia | |].
        - by rewrite list_lookup_insert_ne by lia.
        - by rewrite list_lookup_insert_ne by lia. }
      destruct (decide (i = hole)) as [->|Hih].
      * rewrite list_lookup_insert_eq in Hx by done. by simplify_eq.
      * rewrite list_lookup_insert_ne in Hx by done.
        specialize (Hsib i x Hi Hih Hpi Hx). lia.
  - apply Z.ltb_ge in Hcmp. intros i x p Hi Hx Hp.
    destruct (decide (i = hole)) as [->|Hih].
    + rewrite list_lookup_insert_eq in Hx by done.
      rewrite list_lookup_insert_ne in Hp by lia. by simplify_eq.
    + by apply (Hrest i x p).
Qed.

Lemma push_heap_heap c v :
  heap_ordered key c -> heap_ordered key (push_heap comp (c ++ [v])).
Proof.
  intros Hheap. unfold push_heap, push_heap_aux.
  rewrite last_snoc. rewrite length_app. simpl.
  replace (length c + 1 - 1)%nat with (length c) by lia.
  assert (<[length c := v]> (c ++ [v]) = c ++ [v]) as Hid.
  { apply list_insert_id. rewrite lookup_app_r by lia.
    by rewrite Nat.sub_diag. }
  apply push_heap_loop_heap; [done | rewrite length_app; simpl; lia | |].
  - rewrite Hid. intros i x p Hi Hne Hx Hp.
    pose proof (parent_lt i Hi) as Hpar.
    assert (i < length c)%nat as Hic.
    { apply lookup_lt_Some in Hx. rewrite length_app in Hx. simpl in Hx. lia. }
    rewrite lookup_app_l in Hx, Hp by lia. by eapply Hheap.
  - intros i x p Hpos Hi Hpi Hx _.
    pose proof (parent_lt i Hi) as Hpar.
    apply lookup_lt_Some in Hx. rewrite length_app in Hx. simpl in Hx. lia.
Qed.
End HeapOrder.

Lemma AccountTokenComparator_key x y :
  AccountTokenComparator x y = (tokens y <? tokens x).
Proof. done. Qed.

Lemma pq_push_heap (pq : PQ) a : pq_heap pq -> pq_heap (pq_push pq a).
Proof. apply push_heap_heap, AccountTokenComparator_key. Qed.

Lemma drain_while_heap fuel cond (pq temp pq1 temp1 : PQ) :
  drain_while fuel cond pq temp = Some (pq1, temp1) ->
  pq_heap temp -> pq_heap temp1.
Proof.
  revert pq temp. induction fuel as [|fuel IH]; intros pq temp Heq Hheap;
    cbn [drain_while] in Heq.
  { by simplify_eq. }
  destruct (pq_top pq) as [t|]; [|by simplify_eq].
  destruct (cond t); [|by simplify_eq].
  destruct (pq_pop pq) as [pq'|]; [|done]. simpl in Heq.
  eapply IH; [done|]. by apply pq_push_heap.
Qed.

(** The queue that [insertAccountIntoPriorityQueue] returns is built by
    [push] alone, so it is heap-ordered whatever the order of its
    argument's vector. *)
Lemma insertAccountIntoPriorityQueue_heap (pq r : PQ) account :
  insertAccountIntoPriorityQueue pq account = Some r -> pq_heap r.
Proof.
  unfold insertAccountIntoPriorityQueue. intros Heq.
  destruct (drain_while _ _ pq []) as [[pq1 temp1]|] eqn:H1; [|done].
  simpl in Heq.
  destruct (drain_while _ _ pq1 _) as [[pq3 temp3]|] eqn:H3; [|done].
  simpl in Heq. simplify_eq.
  eapply drain_while_heap; [done|]. apply pq_push_heap.
  eapply drain_while_heap; [done|]. apply heap_ordered_nil.
Qed.

(** [pop()] on a heap-ordered queue removes an entry of least tokens. *)
Lemma pq_pop_heap_min (pq : PQ) :
  pq_heap pq -> pq ≠ [] ->
  ∃ e r, pq_pop pq = Some r ∧ pq ≡ₚ e :: r ∧ ∀ x, x ∈ pq -> tokens e <= tokens x.
Proof.
  intros Hheap Hne. destruct pq as [|e pq]; [done|].
  destruct (pq_pop_cons e pq) as (r & Hr & Hperm).
  exists e, r. split_and!; [done | by rewrite Hperm |].
  intros x Hx. by eapply (heap_ordered_root_min tokens).
Qed.

(** * Facts about the callback manager *)

Lemma scheduleCallback_callbacks account t cm :
  callbacks (scheduleCallback account t cm) ≡ₚ (t, account) :: callbacks cm.
Proof.
  unfold scheduleCallback. simpl.
  rewrite push_heap_perm. by rewrite <- Permutation_cons_append.
Qed.

Lemma scheduleCallback_indexMap account t cm :
  indexMap (scheduleCallback account t cm) =
  <[id account := length (callbacks cm)]> (indexMap cm).
Proof.
  unfold scheduleCallback. simpl. rewrite length_app. simpl.
  by replace (length (callbacks cm) + 1 - 1)%nat with (length (callbacks cm)) by lia.
Qed.

(** Inside the vector [removeAtIndex] is defined and takes out exactly
    one entry (which one is not said here); the index keeps its ids and
    may record [index] for one of them. *)
Lemma removeAtIndex_spec index cm :
  (index < length (callbacks cm))%nat ->
  ∃ cm' removed,
    removeAtIndex index cm = Some cm' ∧
    callbacks cm ≡ₚ removed :: callbacks cm' ∧
    dom (indexMap cm) ⊆ dom (indexMap cm') ∧
    (∀ i idx, indexMap cm' !! i = Some idx ->
              indexMap cm !! i = Some idx ∨ (idx < length (callbacks cm'))%nat).
Proof.
  intros Hidx. unfold removeAtIndex. cbv zeta.
  remember (callbacks cm) as cbs eqn:Hcbs.
  remember (length cbs) as n eqn:Hnlen.
  case_bool_decide as Hn; [lia|].
  case_bool_decide as Hlast.
  - destruct (cbs !! index) as [target|] eqn:Htarget.
    2:{ apply lookup_ge_None in Htarget. lia. }
    destruct (cbs !! (n - 1)%nat) as [back|] eqn:Hback.
    2:{ apply lookup_ge_None in Hback. lia. }
    simpl.
    assert (<[(n - 1)%nat := target]> (<[index := back]> cbs) ≡ₚ cbs) as Hperm1.
    { rewrite insert_swap_perm; [| lia | done | lia].
      by rewrite list_insert_id. }
    destruct (<[(n - 1)%nat := target]> (<[index := back]> cbs))
      as [|x cbs1'] eqn:Hcbs1.
    { apply Permutation_length in Hperm1. simpl in Hperm1. lia. }
    assert (S (length cbs1') = n) as Hlen1.
    { apply Permutation_length in Hperm1. simpl in Hperm1. lia. }
    destruct (pop_heap_cons AccountTimeComparator x cbs1') as (r & -> & Hr).
    rewrite pop_back_snoc.
    eexists _, x. split_and!; [done | | |]; simpl.
    + by rewrite push_heap_perm, Hr, <- Hperm1.
    + rewrite dom_insert. set_solver.
    + intros i idx Hi. rewrite push_heap_length.
      destruct (decide (i = id back.2)) as [->|Hne].
      * rewrite lookup_insert_eq in Hi. simplify_eq. right.
        rewrite Hr. simpl in Hlen1. lia.
      * rewrite lookup_insert_ne in Hi by done. by left.
  - assert (index = (n - 1)%nat) as -> by (by destruct (decide (index = (n - 1)%nat))).
    destruct (cbs !! (n - 1)%nat) as [back|] eqn:Hback.
    2:{ apply lookup_ge_None in Hback. lia. }
    exists (mkCallbackManager (pop_back cbs) (indexMap cm)), back.
    split_and!; [done | | done | by left]. simpl.
    rewrite <- (take_drop_middle cbs (n - 1) back) at 1 by done.
    rewrite <- Permutation_middle. f_equiv.
    unfold pop_back. rewrite <- Hnlen.
    rewrite drop_ge by lia. by rewrite app_nil_r.
Qed.

(** [cancelCallback] does nothing for an id outside the index. For an id
    inside it, with every recorded index in range, it is defined and
    removes exactly one entry of the vector. *)
Lemma cancelCallback_spec account cm :
  index_in_range cm ->
  ∃ cm' removed,
    cancelCallback account cm = Some cm' ∧
    callbacks cm ≡ₚ removed ++ callbacks cm' ∧
    length removed = (if indexMap cm !! id account is Some _ then 1 else 0)%nat ∧
    dom (indexMap cm) ∖ {[id account]} ⊆ dom (indexMap cm') ∧
    (∀ i idx, indexMap cm' !! i = Some idx ->
              (idx < length (removed ++ callbacks cm'))%nat).
Proof.
  intros Hrange. unfold cancelCallback.
  destruct (indexMap cm !! id account) as [index|] eqn:Hix.
  - destruct (removeAtIndex_spec index
                (mkCallbackManager (callbacks cm) (delete (id account) (indexMap cm))))
      as (cm' & removed & -> & Hperm & Hdom & Hidx); simpl in *.
    { by eapply Hrange. }
    exists cm', [removed]. split_and!; [done..| | ].
    + rewrite dom_delete in Hdom. done.
    + intros i idx Hi. simpl. destruct (Hidx i idx Hi) as [Hold|Hlt]; [|lia].
      apply lookup_delete_Some in Hold as [_ Hold].
      apply Hrange in Hold. by rewrite Hperm in Hold.
  - exists cm, []. split_and!; [done.. | apply subseteq_difference_l; done |].
    intros i idx Hi. simpl. by eapply Hrange.
Qed.

Lemma cancelCallback_absent account cm :
  indexMap cm !! id account = None -> cancelCallback account cm = Some cm.
Proof. intros H. unfold cancelCallback. by rewrite H. Qed.

Lemma cancelCallback_last account cm :
  callbacks cm ≠ [] ->
  indexMap cm !! id account = Some (length (callbacks cm) - 1)%nat ->
  cancelCallback account cm
  = Some (mkCallbackManager (take (length (callbacks cm) - 1) (callbacks cm))
                            (delete (id account) (indexMap cm))).
Proof.
  intros Hne Hix. unfold cancelCallback, removeAtIndex. rewrite Hix. cbn [callbacks].
  case_bool_decide as Hn.
  { destruct (callbacks cm); [done|simpl in Hn; lia]. }
  case_bool_decide as Hlast; [done|]. done.
Qed.

Lemma removeAtIndex_Some_in_range index cm cm' :
  removeAtIndex index cm = Some cm' -> (index < length (callbacks cm))%nat.
Proof.
  unfold removeAtIndex. cbv zeta.
  case_bool_decide as Hn; [done|].
  case_bool_decide as Hlast; [|lia].
  destruct (callbacks cm !! index) eqn:Hi; [|done]. intros _.
  by eapply lookup_lt_Some.
Qed.

(** A defined cancel only takes entries out. *)
Lemma cancelCallback_callbacks_sub account cm cm' c :
  cancelCallback account cm = Some cm' ->
  c ∈ callbacks cm' -> c ∈ callbacks cm.
Proof.
  unfold cancelCallback. destruct (indexMap cm !! id account) as [index|].
  2:{ intros. by simplify_eq. }
  intros Hrm Hc. pose proof (removeAtIndex_Some_in_range _ _ _ Hrm) as Hlt.
  destruct (removeAtIndex_spec index _ Hlt) as (cm2 & removed & Hrm2 & Hperm & _).
  rewrite Hrm in Hrm2. simplify_eq. cbn [callbacks] in Hperm.
  rewrite Hperm. apply elem_of_cons. by right.
Qed.

Lemma fireCallbacks_loop_sound fuel t cm cm' evs :
  fireCallbacks_loop fuel t cm = Some (cm', evs) ->
  ∃ fired,
    callbacks cm ≡ₚ fired ++ callbacks cm' ∧
    evs = notification <$> fired ∧
    Forall (λ c, fire_time c <= t) fired ∧
    dom (indexMap cm') ⊆ dom (indexMap cm) ∧
    (fired ≠ [] -> callbacks cm' ≠ []).
Proof.
  revert cm cm' evs. induction fuel as [|fuel IH]; intros cm cm' evs Heq;
    cbn [fireCallbacks_loop] in Heq.
  { simplify_eq. by exists []. }
  destruct (callbacks cm) as [|front cbs] eqn:Hcbs; cbn [head] in Heq.
  { simplify_eq. exists []. by rewrite Hcbs. }
  destruct (front.1 <=? t) eqn:Hdue.
  2:{ simplify_eq. exists []. by rewrite Hcbs. }
  apply Z.leb_le in Hdue.
  destruct (pop_heap_cons Callback_lt front cbs) as (r & Hpop & Hr).
  rewrite Hpop, pop_back_snoc in Heq.
  destruct (head r) as [account|] eqn:Hhead; [|done]. simpl in Heq.
  destruct (fireCallbacks_loop fuel t _) as [[cm2 evs2]|] eqn:Hrec; [|done].
  simpl in Heq. simplify_eq.
  apply IH in Hrec as (fired & Hperm & -> & Hall & Hdom & Hlast).
  cbn [callbacks indexMap] in *.
  exists (front :: fired). split_and!.
  - simpl. by rewrite <- Hperm, Hr.
  - done.
  - by constructor.
  - etrans; [exact Hdom|]. rewrite dom_delete. by apply subseteq_difference_l.
  - intros _. destruct fired as [|f fired]; [|by apply Hlast].
    simpl in Hperm. intros Hnil. rewrite Hnil in Hperm.
    apply Permutation_nil_r in Hperm. by subst r.
Qed.

(** * Facts about [ingestAccountUpdate] *)

(** Inside the ranges of [int] and of the 64-bit clock the fire time is
    the plain sum [now + (callbackTimeMs + jitter) ms]. *)
Lemma fireTime_no_overflow now jitter account :
  INT_MIN <= callbackTimeMs account + jitter <= INT_MAX ->
  - 2 ^ 63 <= now + 1000000 * (callbackTimeMs account + jitter) < 2 ^ 63 ->
  fireTime now jitter account = now + 1000000 * (callbackTimeMs account + jitter).
Proof.
  unfold fireTime, wrap, INT_MIN, INT_MAX. intros Hint Hclock.
  change (2 ^ (32 - 1)) with 2147483648. change (2 ^ 32) with 4294967296.
  change (2 ^ (64 - 1)) with 9223372036854775808.
  change (2 ^ 64) with 18446744073709551616.
  change (2 ^ 31) with 2147483648 in Hint.
  change (2 ^ 63) with 9223372036854775808 in Hclock.
  rewrite (Z.mod_small (callbackTimeMs account + jitter + 2147483648)) by lia.
  rewrite Z.mod_small by lia. lia.
Qed.

(** Outside them it wraps: the largest [int] delay and a jitter of one
    millisecond give a fire time before the clock reading. *)
Lemma fireTime_wraps :
  fireTime 0 1 (mkAccount "X" "user" ∅ 0 1 INT_MAX) = - 2147483648000000.
Proof. by vm_compute. Qed.

Lemma accept_spec now jitter account m :
  ∃ pq2,
    evicted (account :: ranked m (accountType account)) pq2 ∧
    accept now jitter account m =
    Some (mkAccountManager
            (scheduleCallback account (fireTime now jitter account) (callbackManager m))
            (mkAccountIndexer
               (<[accountType account := pq2]> (highestTokenAccounts (accountIndexer m)))
               (<[key_of account := account]> (indexedAccounts (accountIndexer m))))).
Proof.
  unfold accept, ranked, ranked_in. simpl.
  set (pq := default [] _).
  destruct (insertAccountIntoPriorityQueue_perm pq account) as (pq1 & Hins & Hperm).
  rewrite Hins. simpl.
  pose proof (insertAccountIntoPriorityQueue_heap _ _ _ Hins) as Hheap.
  destruct (K <? length pq1)%nat eqn:Hk.
  - apply Nat.ltb_lt in Hk.
    destruct (pq_pop_heap_min pq1 Hheap) as (e & pq2 & -> & Hp2 & Hmin).
    { intros ->. simpl in Hk. lia. }
    exists pq2. split; [|reflexivity]. right. split; [by rewrite <- Hperm|].
    exists e. split; [by rewrite <- Hperm|].
    intros x Hx. apply Hmin. by rewrite Hperm.
  - apply Nat.ltb_ge in Hk. exists pq1. split; [|reflexivity].
    left. by rewrite <- Hperm.
Qed.

Lemma ranked_lookup m accType pq :
  highestTokenAccounts (accountIndexer m) !! accType = Some pq ->
  ranked m accType = pq.
Proof. unfold ranked, ranked_in. by intros ->. Qed.

(** The three paths of [ingestAccountUpdate], told apart by what the
    ranking of the update's type holds for its id. *)
Lemma ingestAccountUpdate_cases now jitter account m :
  let pq := ranked m (accountType account) in
  ((∀ e, e ∈ pq -> id e ≠ id account) ∧
   ingestAccountUpdate now jitter account m = accept now jitter account m) ∨
  (∃ e, e ∈ pq ∧ id e = id account ∧ version account <= version e ∧
        ingestAccountUpdate now jitter account m = Some m) ∨
  (∃ e e' r, e ∈ pq ∧ id e = id account ∧ version e < version account ∧
             id e' = id account ∧ pq ≡ₚ e' :: r ∧
             ingestAccountUpdate now jitter account m =
             cm1 ← cancelCallback e (callbackManager m);
             accept now jitter account
               (superseded m cm1 (accountType account) e r)).
Proof.
  intros pq. subst pq. unfold ingestAccountUpdate, ranked, ranked_in.
  destruct (highestTokenAccounts (accountIndexer m) !! accountType account)
    as [pq|] eqn:Hpq; simpl.
  2:{ left. split; [|done]. intros e He. by apply elem_of_nil in He. }
  destruct (scan_queue_spec (length pq) pq (id account))
    as [(jt & t & -> & Htop & Ht & Hid)|(jt & -> & Hnone)]; [done| |]; simpl.
  2:{ by left. }
  right. rewrite Htop. simpl.
  destruct (version account <=? version t) eqn:Hv.
  - left. apply Z.leb_le in Hv. by exists t.
  - right. apply Z.leb_gt in Hv.
    destruct (removeAccountFromPriorityQueue_spec pq account) as (r & e' & Hrm & Hid' & Hperm).
    { by exists t. }
    exists t, e', r. split_and!; [done..|].
    destruct (cancelCallback t (callbackManager m)) as [cm1|]; [|done].
    simpl. rewrite Hrm. done.
Qed.

Lemma NoDup_fmap_eq {A B} (f : A -> B) (l : list A) x y :
  NoDup (f <$> l) -> x ∈ l -> y ∈ l -> f x = f y -> x = y.
Proof.
  induction l as [|z l IH]; intros Hnd Hx Hy Hf.
  { by apply elem_of_nil in Hx. }
  rewrite fmap_cons in Hnd. apply NoDup_cons in Hnd as [Hz Hnd].
  apply elem_of_cons in Hx as [->|Hx]; apply elem_of_cons in Hy as [->|Hy].
  - done.
  - exfalso. apply Hz. rewrite Hf. by apply list_elem_of_fmap_2.
  - exfalso. apply Hz. rewrite <- Hf. by apply list_elem_of_fmap_2.
  - by apply IH.
Qed.

Lemma elem_of_snoc_old {A} (l : list A) (a x : A) : x ∈ l -> x ∈ l ++ [a].
Proof. intros. apply elem_of_app. by left. Qed.

Lemma elem_of_snoc_new {A} (l : list A) (a : A) : a ∈ l ++ [a].
Proof. apply elem_of_app. right. by apply list_elem_of_singleton. Qed.

Lemma elem_of_head {A} (l : list A) (a : A) : a ∈ a :: l.
Proof. apply elem_of_cons. by left. Qed.

(** What [ingestAccountUpdate] makes of the ledger, by path. *)
Lemma ingestAccountUpdate_ledger now jitter account m m' :
  ingestAccountUpdate now jitter account m = Some m' ->
  let ledger := indexedAccounts (accountIndexer m) in
  let pq := ranked m (accountType account) in
  (m' = m ∧ ∃ e, e ∈ pq ∧ id e = id account ∧ version account <= version e) ∨
  (∃ pq2 cm1,
     (indexedAccounts (accountIndexer m') = <[key_of account := account]> ledger ∧
      (∀ e, e ∈ pq -> id e ≠ id account) ∧ cm1 = callbackManager m ∧
      evicted (account :: pq) pq2
      ∨
      ∃ e r, indexedAccounts (accountIndexer m')
               = <[key_of account := account]> (delete (key_of e) ledger) ∧
             e ∈ pq ∧ id e = id account ∧ version e < version account ∧
             cancelCallback e (callbackManager m) = Some cm1 ∧
             (∃ e', id e' = id account ∧ pq ≡ₚ e' :: r) ∧
             evicted (account :: r) pq2) ∧
     highestTokenAccounts (accountIndexer m')
       = <[accountType account := pq2]> (highestTokenAccounts (accountIndexer m)) ∧
     callbackManager m'
       = scheduleCallback account (fireTime now jitter account) cm1).
Proof.
  intros Hing ledger pq.
  destruct (ingestAccountUpdate_cases now jitter account m)
    as [[Hfresh Heq]|[(e & He & Hid & Hv & Heq)|(e & e' & r & He & Hid & Hv & Hid' & Hperm & Heq)]];
    rewrite Heq in Hing; clear Heq.
  - right. destruct (accept_spec now jitter account m) as (pq2 & Hev & Heq).
    rewrite Heq in Hing. simplify_eq.
    exists pq2, (callbackManager m). split_and!; [|done..]. left. done.
  - left. simplify_eq. split; [done|]. by exists e.
  - right. destruct (cancelCallback e (callbackManager m)) as [cm1|] eqn:Hc; [|done].
    simpl in Hing.
    destruct (accept_spec now jitter account
                (superseded m cm1 (accountType account) e r)) as (pq2 & Hev & Heq).
    rewrite Heq in Hing. simplify_eq.
    exists pq2, cm1. split_and!.
    + right. exists e, r. split_and!; [done..| by exists e' |].
      unfold ranked, ranked_in, superseded in Hev. cbn in Hev.
      by rewrite lookup_insert_eq in Hev.
    + cbn. by rewrite insert_insert_eq.
    + done.
Qed.

(** ** The ranking invariant *)

Lemma ranked_ok m accType :
  ranking_ok m ->
  (length (ranked m accType) <= K)%nat ∧ NoDup (id <$> ranked m accType) ∧
  ∀ a, a ∈ ranked m accType -> accountType a = accType.
Proof.
  intros Hok. unfold ranked, ranked_in.
  destruct (highestTokenAccounts (accountIndexer m) !! accType) as [pq|] eqn:Hpq.
  - by apply Hok.
  - simpl. split_and!; [lia | constructor |]. intros a Ha. by apply elem_of_nil in Ha.
Qed.

Lemma evicted_sub l pq2 x : evicted l pq2 -> x ∈ pq2 -> x ∈ l.
Proof.
  intros [[_ Hp]|[_ (e & Hp & _)]] Hx.
  - by rewrite <- Hp.
  - rewrite Hp. apply elem_of_cons. by right.
Qed.

Lemma evicted_ok l pq2 :
  evicted l pq2 -> (length l <= S K)%nat -> NoDup (id <$> l) ->
  (length pq2 <= K)%nat ∧ NoDup (id <$> pq2).
Proof.
  intros [[Hlen Hp]|[Hlen (e & Hp & _)]] Hl Hnd.
  - by rewrite Hp.
  - rewrite Hp in Hl, Hnd. simpl in Hl. rewrite fmap_cons in Hnd.
    apply NoDup_cons in Hnd as [_ Hnd]. split; [lia|done].
Qed.

Lemma accept_ranking_ok now jitter account m m' :
  ranking_ok m ->
  (∀ e, e ∈ ranked m (accountType account) -> id e ≠ id account) ->
  accept now jitter account m = Some m' -> ranking_ok m'.
Proof.
  intros Hok Hfresh Hacc.
  destruct (accept_spec now jitter account m) as (pq2 & Hev & Heq).
  rewrite Heq in Hacc. simplify_eq.
  destruct (ranked_ok m (accountType account) Hok) as (Hlen & Hnd & Hty).
  intros accType pq Hpq. simpl in Hpq.
  destruct (decide (accountType account = accType)) as [<-|Hne].
  - rewrite lookup_insert_eq in Hpq. simplify_eq.
    destruct (evicted_ok _ _ Hev) as [Hlen2 Hnd2].
    { simpl. lia. }
    { rewrite fmap_cons. apply NoDup_cons. split; [|done].
      intros Hin. apply list_elem_of_fmap in Hin as (e & Hid & He).
      by apply (Hfresh e He). }
    split_and!; [done..|]. intros a Ha.
    apply (evicted_sub _ _ _ Hev), elem_of_cons in Ha as [->|Ha]; [done|by apply Hty].
  - rewrite lookup_insert_ne in Hpq by done. by apply Hok.
Qed.

Lemma superseded_ranking_ok m cm1 account e e' r :
  ranking_ok m -> id e' = id account ->
  ranked m (accountType account) ≡ₚ e' :: r ->
  ranking_ok (superseded m cm1 (accountType account) e r) ∧
  ranked (superseded m cm1 (accountType account) e r) (accountType account) = r ∧
  ∀ x, x ∈ r -> id x ≠ id account.
Proof.
  intros Hok Hid Hperm.
  destruct (ranked_ok m (accountType account) Hok) as (Hlen & Hnd & Hty).
  rewrite Hperm in Hlen, Hnd. simpl in Hlen. rewrite fmap_cons in Hnd.
  apply NoDup_cons in Hnd as [Hnotin Hnd].
  split_and!.
  - intros accType pq Hpq. simpl in Hpq.
    destruct (decide (accountType account = accType)) as [<-|Hne].
    + rewrite lookup_insert_eq in Hpq. simplify_eq.
      split_and!; [lia | done |]. intros a Ha. apply Hty. rewrite Hperm.
      apply elem_of_cons. by right.
    + rewrite lookup_insert_ne in Hpq by done. by apply Hok.
  - unfold ranked, ranked_in, superseded. simpl. by rewrite lookup_insert_eq.
  - intros x Hx Hidx. apply Hnotin. rewrite Hid, <- Hidx.
    by apply list_elem_of_fmap_2.
Qed.

Lemma ingestAccountUpdate_ranking_ok now jitter account m m' :
  ranking_ok m ->
  ingestAccountUpdate now jitter account m = Some m' -> ranking_ok m'.
Proof.
  intros Hok Hing.
  destruct (ingestAccountUpdate_cases now jitter account m)
    as [[Hfresh Heq]|[(e & _ & _ & _ & Heq)|(e & e' & r & _ & _ & _ & Hid & Hperm & Heq)]];
    rewrite Heq in Hing.
  - by eapply accept_ranking_ok.
  - by simplify_eq.
  - destruct (cancelCallback e (callbackManager m)) as [cm1|]; [|done].
    simpl in Hing.
    destruct (superseded_ranking_ok m cm1 account e e' r Hok Hid Hperm)
      as (Hok1 & Hr & Hfresh).
    eapply accept_ranking_ok; [done | | done]. by rewrite Hr.
Qed.

Lemma step_ranking_ok s m m' : ranking_ok m -> step s m = Some m' -> ranking_ok m'.
Proof.
  intros Hok Hstep. destruct s as [now jitter account|t]; simpl in Hstep.
  - by eapply ingestAccountUpdate_ranking_ok.
  - destruct (fireCallbacks t (callbackManager m)) as [[cm evs]|]; [|done].
    simpl in Hstep. by simplify_eq.
Qed.

Lemma run_ranking_ok ss m m' : ranking_ok m -> run ss m = Some m' -> ranking_ok m'.
Proof.
  revert m. induction ss as [|s ss IH]; intros m Hok Hrun; simpl in Hrun.
  - by simplify_eq.
  - destruct (step s m) as [m1|] eqn:Hstep; [|done]. simpl in Hrun.
    eapply IH; [|done]. by eapply step_ranking_ok.
Qed.

Lemma emptyManager_ranking_ok : ranking_ok emptyManager.
Proof. intros accType pq Hpq. done. Qed.

(** ** Runs without sweeps are defined *)

Lemma scheduleCallback_in_range account t cm :
  (∀ i idx, indexMap cm !! i = Some idx -> (idx <= length (callbacks cm))%nat) ->
  index_in_range (scheduleCallback account t cm).
Proof.
  intros Hle i idx Hi.
  rewrite scheduleCallback_callbacks. simpl.
  rewrite scheduleCallback_indexMap in Hi.
  destruct (decide (id account = i)) as [<-|Hne].
  - rewrite lookup_insert_eq in Hi. simplify_eq. lia.
  - rewrite lookup_insert_ne in Hi by done. apply Hle in Hi. lia.
Qed.

Lemma accept_in_range now jitter account m :
  (∀ i idx, indexMap (callbackManager m) !! i = Some idx ->
            (idx <= length (callbacks (callbackManager m)))%nat) ->
  ∃ m', accept now jitter account m = Some m' ∧
        index_in_range (callbackManager m').
Proof.
  intros Hle. destruct (accept_spec now jitter account m) as (pq2 & _ & ->).
  eexists. split; [done|]. simpl. by apply scheduleCallback_in_range.
Qed.

Lemma ingestAccountUpdate_total now jitter account m :
  index_in_range (callbackManager m) ->
  ∃ m', ingestAccountUpdate now jitter account m = Some m' ∧
        index_in_range (callbackManager m').
Proof.
  intros Hrange.
  destruct (ingestAccountUpdate_cases now jitter account m)
    as [[_ ->]|[(e & _ & _ & _ & ->)|(e & e' & r & _ & _ & _ & _ & _ & ->)]].
  - apply accept_in_range. intros i idx Hi. apply Hrange in Hi. lia.
  - by exists m.
  - destruct (cancelCallback_spec e (callbackManager m) Hrange)
      as (cm1 & removed & -> & Hperm & Hlen & _ & Hidx). simpl.
    apply accept_in_range. simpl. intros i idx Hi. apply Hidx in Hi.
    rewrite length_app in Hi. destruct (indexMap (callbackManager m) !! id e); lia.
Qed.

Lemma run_ingestOnly_total ss m :
  ingestOnly ss -> index_in_range (callbackManager m) ->
  ∃ m', run ss m = Some m' ∧ index_in_range (callbackManager m').
Proof.
  revert m. induction ss as [|s ss IH]; intros m Hss Hrange; simpl.
  - by exists m.
  - apply Forall_cons in Hss as [Hs Hss]. destruct s as [now jitter account|t]; [|done].
    simpl. destruct (ingestAccountUpdate_total now jitter account m Hrange)
      as (m1 & -> & Hrange1). simpl. by apply IH.
Qed.

Lemma emptyManager_in_range : index_in_range (callbackManager emptyManager).
Proof. intros i idx Hi. done. Qed.

(** ** Induction over a run, following the ledger and the rankings *)

Lemma ingested_cons_ingest now jitter account ss :
  ingested (Ingest now jitter account :: ss) = account :: ingested ss.
Proof. done. Qed.

Lemma ingested_cons_sweep t ss : ingested (Sweep t :: ss) = ingested ss.
Proof. done. Qed.

Lemma step_sweep_indexer t m m' :
  step (Sweep t) m = Some m' -> accountIndexer m' = accountIndexer m.
Proof.
  simpl. destruct (fireCallbacks t (callbackManager m)) as [[cm evs]|]; [|done].
  simpl. intros. by simplify_eq.
Qed.

Lemma run_indexer_ind (Q : Account -> Prop) (P : list Account -> AccountIndexer -> Prop) :
  (∀ seen m m' now jitter a,
     Q a -> P seen (accountIndexer m) ->
     ingestAccountUpdate now jitter a m = Some m' ->
     P (seen ++ [a]) (accountIndexer m')) ->
  ∀ ss seen m m',
    Forall Q (ingested ss) -> P seen (accountIndexer m) ->
    run ss m = Some m' -> P (seen ++ ingested ss) (accountIndexer m').
Proof.
  intros Hstep. induction ss as [|s ss IH]; intros seen m m' HQ HP Hrun;
    simpl in Hrun.
  - simplify_eq. by rewrite app_nil_r.
  - destruct (step s m) as [m1|] eqn:Hs; [|done]. simpl in Hrun.
    destruct s as [now jitter a|t].
    + rewrite ingested_cons_ingest in HQ |- *.
      apply Forall_cons in HQ as [Ha HQ].
      rewrite (assoc_L _ seen [a] (ingested ss) : seen ++ a :: ingested ss = _).
      eapply IH; [done | | done]. by eapply Hstep.
    + rewrite ingested_cons_sweep in HQ |- *.
      eapply IH; [done | | done]. by rewrite (step_sweep_indexer _ _ _ Hs).
Qed.

Lemma run_app ss1 ss2 m :
  run (ss1 ++ ss2) m = m1 ← run ss1 m; run ss2 m1.
Proof.
  revert m. induction ss1 as [|s ss1 IH]; intros m; simpl.
  - by destruct (run ss2 m).
  - destruct (step s m) as [m1|]; simpl; [apply IH|done].
Qed.

Lemma run_ledger_keys ss m k x :
  run ss emptyManager = Some m ->
  indexedAccounts (accountIndexer m) !! k = Some x ->
  k = key_of x ∧ x ∈ ingested ss.
Proof.
  intros Hrun.
  pose proof (run_indexer_ind (λ _, True)
                (λ seen ix, ∀ k x, indexedAccounts ix !! k = Some x ->
                                   k = key_of x ∧ x ∈ seen)) as Hind.
  revert k x. apply (Hind) with (ss := ss) (seen := []) (m := emptyManager);
    [| by apply Forall_true | done | done].
  intros seen m0 m1 now jitter a _ Hinv Hing k x Hk.
  apply ingestAccountUpdate_ledger in Hing
    as [[-> _]|(pq2 & cm1 & [(Hl & _)|(e & r & Hl & _)] & _ & _)].
  - destruct (Hinv k x Hk). split; [done|by apply elem_of_snoc_old].
  - rewrite Hl in Hk. apply lookup_insert_Some in Hk as [[<- <-]|[_ Hk]].
    + split; [done|apply elem_of_snoc_new].
    + destruct (Hinv k x Hk). split; [done|by apply elem_of_snoc_old].
  - rewrite Hl in Hk. apply lookup_insert_Some in Hk as [[<- <-]|[_ Hk]].
    + split; [done|apply elem_of_snoc_new].
    + apply lookup_delete_Some in Hk as [_ Hk].
      destruct (Hinv k x Hk). split; [done|by apply elem_of_snoc_old].
Qed.

(** * Runs, identifier by identifier *)

Lemma some_ingest_app bad i ss1 ss2 m :
  some_ingest bad i (ss1 ++ ss2) m = false ->
  some_ingest bad i ss1 m = false ∧
  ∀ m1, run ss1 m = Some m1 -> some_ingest bad i ss2 m1 = false.
Proof.
  revert m. induction ss1 as [|s ss1 IH]; intros m Hno; simpl in *.
  - split; [done|]. intros m1 Hm1. by simplify_eq.
  - apply orb_false_iff in Hno as [Hs Hno]. rewrite Hs. simpl.
    destruct (step s m) as [m0|]; simpl; [|done].
    destruct (IH m0 Hno) as [H1 H2]. done.
Qed.

Lemma some_ingest_cons bad i now jitter account ss m :
  some_ingest bad i (Ingest now jitter account :: ss) m = false ->
  id account = i -> bad m account = false.
Proof.
  simpl. intros Hno Hid. apply orb_false_iff in Hno as [Hs _].
  by rewrite bool_decide_eq_true_2 in Hs.
Qed.

(** Induction over a run in which no update of [i] meets [bad]. *)
Lemma run_some_ingest_ind bad i (P : list Account -> AccountManager -> Prop) :
  (∀ seen m m' now jitter a,
     P seen m -> (id a = i -> bad m a = false) ->
     ingestAccountUpdate now jitter a m = Some m' -> P (seen ++ [a]) m') ->
  (∀ seen m m' t, P seen m -> step (Sweep t) m = Some m' -> P seen m') ->
  ∀ ss seen m m',
    some_ingest bad i ss m = false -> P seen m -> run ss m = Some m' ->
    P (seen ++ ingested ss) m'.
Proof.
  intros Hingest Hsweep. induction ss as [|s ss IH]; intros seen m m' Hno HP Hrun;
    simpl in Hrun.
  - simplify_eq. by rewrite app_nil_r.
  - destruct (step s m) as [m1|] eqn:Hs; [|done]. simpl in Hrun.
    pose proof Hno as Hno'. simpl in Hno'. rewrite Hs in Hno'.
    apply orb_false_iff in Hno' as [_ Hrest].
    destruct s as [now jitter a|t].
    + rewrite ingested_cons_ingest.
      rewrite (assoc_L _ seen [a] (ingested ss) : seen ++ a :: ingested ss = _).
      eapply IH; [done | | done].
      eapply Hingest; [done | | done].
      by eapply some_ingest_cons.
    + rewrite ingested_cons_sweep. eapply IH; [done | | done].
      by eapply Hsweep.
Qed.

(** ** The ledger, identifier by identifier *)

Lemma elem_of_ledger_ids m i :
  i ∈ ledger_ids m ↔
  ∃ k : AccountKey, k.1 = i ∧ is_Some (indexedAccounts (accountIndexer m) !! k).
Proof.
  unfold ledger_ids. rewrite list_elem_of_fmap. split.
  - intros ([k x] & -> & Hin). apply elem_of_map_to_list in Hin.
    exists k. split; [done|by exists x].
  - intros (k & <- & [x Hx]). exists (k, x). split; [done|].
    by apply elem_of_map_to_list.
Qed.

(** An update that does not return unranked and whose identifier the
    ranking of its category does not hold is new to the ledger. *)
Lemma returns_unranked_false m a (k : AccountKey) :
  returns_unranked m a = false ->
  (∀ e, e ∈ ranked m (accountType a) -> id e ≠ id a) ->
  k.1 = id a -> indexedAccounts (accountIndexer m) !! k = None.
Proof.
  unfold returns_unranked. intros Hno Hfresh Hk.
  apply andb_false_iff in Hno as [Hno|Hno]; apply bool_decide_eq_false in Hno.
  - destruct (indexedAccounts (accountIndexer m) !! k) as [x|] eqn:Hx; [|done].
    exfalso. apply Hno, elem_of_ledger_ids. exists k. split; [done|by exists x].
  - exfalso. apply Hno. unfold ranked_ids. intros Hin.
    apply list_elem_of_fmap in Hin as (e & Hid & He). by apply (Hfresh e He).
Qed.

Lemma ranked_after m m' accType pq2 c :
  highestTokenAccounts (accountIndexer m')
    = <[accType := pq2]> (highestTokenAccounts (accountIndexer m)) ->
  ranked m' c = if decide (accType = c) then pq2 else ranked m c.
Proof.
  intros Hrk. unfold ranked, ranked_in. rewrite Hrk.
  case_decide as Hc.
  - subst c. by rewrite lookup_insert_eq.
  - by rewrite lookup_insert_ne.
Qed.

(** What a run keeps of the ledger for an identifier none of whose
    updates returns unranked. *)
Lemma ingestAccountUpdate_ledger_tracks i seen m m' now jitter a :
  (ranking_ok m ∧
   (∀ k x, indexedAccounts (accountIndexer m) !! k = Some x ->
           k = key_of x ∧ x ∈ seen) ∧
   ledger_tracks i seen m) ->
  (id a = i -> returns_unranked m a = false) ->
  ingestAccountUpdate now jitter a m = Some m' ->
  ranking_ok m' ∧
  (∀ k x, indexedAccounts (accountIndexer m') !! k = Some x ->
          k = key_of x ∧ x ∈ seen ++ [a]) ∧
  ledger_tracks i (seen ++ [a]) m'.
Proof.
  intros (Hok & Hkeys & Hone & Hrk & Hmax) Hclean Hing.
  split; [by eapply ingestAccountUpdate_ranking_ok|].
  destruct (ranked_ok m (accountType a) Hok) as (_ & Hnd & _).
  pose proof Hing as Hpaths.
  apply ingestAccountUpdate_ledger in Hpaths
    as [[-> (e & He & Hide & Hv)]
       |(pq2 & cm1 & [(Hl & Hfresh & _ & Hev)
                     |(e & r & Hl & He & Hide & Hv & _ & (e' & Hide' & Hperm) & Hev)]
         & Hrk' & _)].
  - (* stale *)
    split.
    { intros k x Hk. destruct (Hkeys k x Hk). split; [done|by apply elem_of_snoc_old]. }
    split_and!; [done..|].
    intros b Hb Hidb. apply elem_of_app in Hb as [Hb|Hb]; [by apply Hmax|].
    apply list_elem_of_singleton in Hb as ->.
    exists e. split_and!; [|congruence|done]. apply (Hrk (accountType a)); [done|congruence].
  - (* an identifier the ranking does not hold *)
    assert (id a = i -> ∀ k : AccountKey, k.1 = i ->
              indexedAccounts (accountIndexer m) !! k = None) as Hnew.
    { intros Hid k Hk. apply (returns_unranked_false m a); [by apply Hclean|done|congruence]. }
    split.
    { intros k x Hk. rewrite Hl in Hk. apply lookup_insert_Some in Hk as [[<- <-]|[_ Hk]].
      - split; [done|apply elem_of_snoc_new].
      - destruct (Hkeys k x Hk). split; [done|by apply elem_of_snoc_old]. }
    assert (∀ x, id x = i -> indexedAccounts (accountIndexer m) !! key_of x = Some x ->
                 indexedAccounts (accountIndexer m') !! key_of x = Some x) as Hkeep.
    { intros x Hidx Hx. rewrite Hl. destruct (decide (id a = i)) as [Hid|Hid].
      - rewrite (Hnew Hid (key_of x)) in Hx by done. done.
      - rewrite lookup_insert_ne; [done|]. unfold key_of. congruence. }
    split_and!.
    + intros k1 k2 Hk1 Hk2 [x1 Hx1] [x2 Hx2]. rewrite Hl in Hx1, Hx2.
      destruct (decide (id a = i)) as [Hid|Hid].
      * apply lookup_insert_Some in Hx1 as [[<- _]|[_ Hx1]];
          [|by rewrite (Hnew Hid k1) in Hx1].
        apply lookup_insert_Some in Hx2 as [[<- _]|[_ Hx2]];
          [done|by rewrite (Hnew Hid k2) in Hx2].
      * rewrite lookup_insert_ne in Hx1 by (intros <-; by apply Hid).
        rewrite lookup_insert_ne in Hx2 by (intros <-; by apply Hid).
        apply Hone; [done..| by exists x1 | by exists x2].
    + intros c e He Hide. rewrite (ranked_after m m' _ pq2 c Hrk') in He.
      case_decide as Hc.
      * apply (evicted_sub _ _ _ Hev), elem_of_cons in He as [->|He].
        { rewrite Hl. by rewrite lookup_insert_eq. }
        apply Hkeep; [done|]. by apply (Hrk (accountType a)).
      * apply Hkeep; [done|]. by apply (Hrk c).
    + intros b Hb Hidb. apply elem_of_app in Hb as [Hb|Hb].
      * destruct (Hmax b Hb Hidb) as (x & Hx & Hidx & Hvx).
        exists x. split_and!; [|done..]. by apply Hkeep.
      * apply list_elem_of_singleton in Hb as ->. exists a.
        split_and!; [|done|lia]. rewrite Hl. by rewrite lookup_insert_eq.
  - (* supersession *)
    assert (e' = e) as ->.
    { eapply NoDup_fmap_eq; [exact Hnd | | done | congruence].
      rewrite Hperm. apply elem_of_head. }
    rewrite Hperm, fmap_cons in Hnd. apply NoDup_cons in Hnd as [Hnotin Hnd].
    assert (∀ x, x ∈ r -> id x ≠ id a) as Hr.
    { intros x Hx Hidx. apply Hnotin. rewrite Hide, <- Hidx.
      by apply list_elem_of_fmap_2. }
    assert (id a = i -> ∀ x, id x = i ->
              indexedAccounts (accountIndexer m) !! key_of x = Some x -> x = e) as Hise.
    { intros Hid x Hidx Hx.
      assert (indexedAccounts (accountIndexer m) !! key_of e = Some e) as Hle.
      { apply (Hrk (accountType a)); [done|congruence]. }
      assert (key_of x = key_of e) as Hk.
      { apply Hone; [done | simpl; congruence | by exists x | by exists e]. }
      rewrite Hk in Hx. congruence. }
    split.
    { intros k x Hk. rewrite Hl in Hk. apply lookup_insert_Some in Hk as [[<- <-]|[_ Hk]].
      - split; [done|apply elem_of_snoc_new].
      - apply lookup_delete_Some in Hk as [_ Hk].
        destruct (Hkeys k x Hk). split; [done|by apply elem_of_snoc_old]. }
    assert (∀ x, id x = i -> id x ≠ id a ->
                 indexedAccounts (accountIndexer m) !! key_of x = Some x ->
                 indexedAccounts (accountIndexer m') !! key_of x = Some x) as Hkeep.
    { intros x Hidx Hne Hx. rewrite Hl.
      rewrite lookup_insert_ne by (unfold key_of; congruence).
      rewrite lookup_delete_ne by (unfold key_of; congruence). done. }
    split_and!.
    + intros k1 k2 Hk1 Hk2 [x1 Hx1] [x2 Hx2]. rewrite Hl in Hx1, Hx2.
      destruct (decide (id a = i)) as [Hid|Hid].
      * assert (∀ (k : AccountKey) x, k.1 = i ->
                  <[key_of a := a]> (delete (key_of e) (indexedAccounts (accountIndexer m)))
                    !! k = Some x -> k = key_of a) as Honly.
        { intros k x Hk Hx. apply lookup_insert_Some in Hx as [[<- _]|[_ Hx]]; [done|].
          apply lookup_delete_Some in Hx as [Hne Hx]. exfalso. apply Hne.
          destruct (Hkeys k x Hx) as [-> _]. f_equal. symmetry.
          by apply (Hise Hid x). }
        by rewrite (Honly k1 x1), (Honly k2 x2).
      * rewrite lookup_insert_ne in Hx1 by (intros <-; by apply Hid).
        rewrite lookup_insert_ne in Hx2 by (intros <-; by apply Hid).
        apply lookup_delete_Some in Hx1 as [_ Hx1].
        apply lookup_delete_Some in Hx2 as [_ Hx2].
        apply Hone; [done..| by exists x1 | by exists x2].
    + intros c e0 He0 Hide0. rewrite (ranked_after m m' _ pq2 c Hrk') in He0.
      case_decide as Hc.
      * apply (evicted_sub _ _ _ Hev), elem_of_cons in He0 as [->|He0].
        { rewrite Hl. by rewrite lookup_insert_eq. }
        apply Hkeep; [done | by apply Hr |].
        apply (Hrk (accountType a)); [|done]. rewrite Hperm. apply elem_of_cons. by right.
      * pose proof (Hrk c e0 He0 Hide0) as Hle0.
        destruct (decide (id a = i)) as [Hid|Hid].
        -- exfalso. apply Hc.
           assert (e0 = e) as -> by (by apply (Hise Hid)).
           destruct (ranked_ok m c Hok) as (_ & _ & Hty).
           destruct (ranked_ok m (accountType a) Hok) as (_ & _ & Htya).
           rewrite <- (Hty e He0). symmetry. by apply Htya.
        -- apply Hkeep; [done | congruence | done].
    + intros b Hb Hidb. apply elem_of_app in Hb as [Hb|Hb].
      * destruct (Hmax b Hb Hidb) as (x & Hx & Hidx & Hvx).
        destruct (decide (id a = i)) as [Hid|Hid].
        -- assert (x = e) as -> by (by apply (Hise Hid)).
           exists a. split_and!; [|done|lia]. rewrite Hl. by rewrite lookup_insert_eq.
        -- exists x. split_and!; [|done..]. apply Hkeep; [done|congruence|done].
      * apply list_elem_of_singleton in Hb as ->. exists a.
        split_and!; [|done|lia]. rewrite Hl. by rewrite lookup_insert_eq.
Qed.

Lemma run_ledger_tracks i ss m :
  some_ingest returns_unranked i ss emptyManager = false ->
  run ss emptyManager = Some m ->
  ranking_ok m ∧
  (∀ k x, indexedAccounts (accountIndexer m) !! k = Some x ->
          k = key_of x ∧ x ∈ ingested ss) ∧
  ledger_tracks i (ingested ss) m.
Proof.
  intros Hno Hrun.
  pose proof (run_some_ingest_ind returns_unranked i
           (λ seen m, ranking_ok m ∧
              (∀ k x, indexedAccounts (accountIndexer m) !! k = Some x ->
                      k = key_of x ∧ x ∈ seen) ∧
              ledger_tracks i seen m)) as Hind.
  apply (Hind) with (ss := ss) (seen := []) (m := emptyManager) (m' := m);
    clear Hind.
  - intros seen m0 m1 now jitter a HP Hclean Hing.
    by eapply ingestAccountUpdate_ledger_tracks.
  - intros seen m0 m1 t HP Hs. pose proof (step_sweep_indexer _ _ _ Hs) as Hix.
    destruct HP as (Hok & Hkeys & Hone & Hrk & Hmax).
    unfold ledger_tracks, ranked, ranking_ok. rewrite Hix. done.
  - done.
  - split_and!; [apply emptyManager_ranking_ok | done |].
    split_and!.
    + intros k1 k2 _ _ [x Hx]. done.
    + intros c e He. by apply elem_of_nil in He.
    + intros b Hb. by apply elem_of_nil in Hb.
  - done.
Qed.

(** ** The callback heap, identifier by identifier *)

Lemma pending_perm i cm cm' removed :
  callbacks cm ≡ₚ removed ++ callbacks cm' ->
  (length (pending i cm') <= length (pending i cm))%nat.
Proof.
  intros Hperm. unfold pending. rewrite Hperm, filter_app, length_app. lia.
Qed.

(** A defined cancel only takes entries out. *)
Lemma cancelCallback_Some_perm account cm cm' :
  cancelCallback account cm = Some cm' ->
  ∃ removed, callbacks cm ≡ₚ removed ++ callbacks cm'.
Proof.
  unfold cancelCallback. destruct (indexMap cm !! id account) as [index|].
  2:{ intros. simplify_eq. by exists []. }
  intros Hrm. pose proof (removeAtIndex_Some_in_range _ _ _ Hrm) as Hlt.
  destruct (removeAtIndex_spec index _ Hlt) as (cm2 & removed & Hrm2 & Hperm & _).
  rewrite Hrm in Hrm2. simplify_eq. cbn [callbacks] in Hperm.
  by exists [removed].
Qed.

Lemma pending_schedule i account t cm :
  pending i (scheduleCallback account t cm)
  ≡ₚ if decide (id account = i) then (t, account) :: pending i cm else pending i cm.
Proof.
  unfold pending. rewrite scheduleCallback_callbacks, filter_cons. simpl.
  by repeat case_decide.
Qed.

(** The entry of [i] in the last slot, with the index pointing there. *)
Lemma in_last_slot_true i cm :
  in_last_slot i cm = true ->
  ∃ rest old, callbacks cm = rest ++ [old] ∧ id old.2 = i ∧
              indexMap cm !! i = Some (length (callbacks cm) - 1)%nat.
Proof.
  unfold in_last_slot. destruct (last (callbacks cm)) as [c|] eqn:Hlast; [|done].
  intros Hb. apply andb_true_iff in Hb as [Hid Hix].
  apply bool_decide_eq_true in Hid, Hix.
  apply last_Some in Hlast as [rest Hrest]. by exists rest, c.
Qed.

(** From the last slot [cancelCallback] takes the entry it is asked for. *)
Lemma cancelCallback_in_last_slot e cm :
  in_last_slot (id e) cm = true ->
  ∃ rest old, callbacks cm = rest ++ [old] ∧ id old.2 = id e ∧
    cancelCallback e cm
    = Some (mkCallbackManager rest (delete (id e) (indexMap cm))).
Proof.
  intros Hlast. apply in_last_slot_true in Hlast as (rest & old & Hcbs & Hid & Hix).
  exists rest, old. split_and!; [done..|].
  rewrite cancelCallback_last; [| by rewrite Hcbs; destruct rest | done].
  rewrite Hcbs, length_app. simpl.
  replace (length rest + 1 - 1)%nat with (length rest) by lia.
  by rewrite take_app_length.
Qed.

Lemma supersedes_true m a e :
  e ∈ ranked m (accountType a) -> id e = id a -> version e < version a ->
  supersedes m a = true.
Proof.
  intros He Hid Hv. unfold supersedes. apply bool_decide_eq_true, Exists_exists.
  by exists e.
Qed.

(** What a run keeps of the pending callbacks of an identifier whose
    updates never meet [cancel_misses]. *)
Lemma ingestAccountUpdate_pending i m m' now jitter a :
  (length (pending i (callbackManager m)) <= 1)%nat ->
  (id a = i -> cancel_misses m a = false) ->
  ingestAccountUpdate now jitter a m = Some m' ->
  (length (pending i (callbackManager m')) <= 1)%nat.
Proof.
  intros Hone Hclean Hing.
  apply ingestAccountUpdate_ledger in Hing
    as [[-> _]
       |(pq2 & cm1 & Hpath & _ & Hcm)]; [done|].
  rewrite Hcm, pending_schedule.
  destruct (decide (id a = i)) as [Hid|Hid].
  2:{ destruct Hpath as [(_ & _ & -> & _)|(e & r & _ & _ & _ & _ & Hcancel & _)]; [done|].
      apply cancelCallback_Some_perm in Hcancel as [removed Hperm].
      pose proof (pending_perm i _ _ _ Hperm). lia. }
  specialize (Hclean Hid). unfold cancel_misses in Hclean. rewrite Hid in Hclean.
  simpl. cut (pending i cm1 = []); [by intros ->|].
  destruct Hpath as [(_ & Hfresh & -> & _)|(e & r & _ & He & Hide & Hv & Hcancel & _)].
  - destruct (pending i (callbackManager m)) as [|c l]; [done|]. exfalso.
    apply orb_false_iff in Hclean as [Hin _]. apply bool_decide_eq_false in Hin.
    apply Hin. unfold ranked_ids. intros Hmem.
    apply list_elem_of_fmap in Hmem as (e & Hide & He). apply (Hfresh e He). congruence.
  - destruct (pending i (callbackManager m)) as [|c l] eqn:Hpend.
    + apply cancelCallback_Some_perm in Hcancel as [removed Hperm].
      pose proof (pending_perm i _ _ _ Hperm) as Hle. rewrite Hpend in Hle.
      destruct (pending i cm1); [done|simpl in Hle; lia].
    + apply orb_false_iff in Hclean as [_ Hlast].
      rewrite (supersedes_true m a e He Hide Hv) in Hlast. simpl in Hlast.
      apply negb_false_iff in Hlast. rewrite <- Hid, <- Hide in Hlast.
      destruct (cancelCallback_in_last_slot e _ Hlast) as (rest & old & Hcbs & Hido & Hc).
      rewrite Hc in Hcancel. simplify_eq.
      assert (l = []) as -> by (destruct l; [done|simpl in Hone; lia]).
      unfold pending in Hpend |- *. cbn [callbacks].
      rewrite Hcbs, filter_app in Hpend.
      rewrite filter_cons_True in Hpend by congruence.
      destruct (filter _ rest) as [|x xs]; [done|]. by destruct xs.
Qed.

Lemma run_pending i ss m :
  some_ingest cancel_misses i ss emptyManager = false ->
  run ss emptyManager = Some m ->
  (length (pending i (callbackManager m)) <= 1)%nat.
Proof.
  intros Hno Hrun.
  pose proof (run_some_ingest_ind cancel_misses i
                (λ _ m, (length (pending i (callbackManager m)) <= 1)%nat)) as Hind.
  apply (Hind) with (ss := ss) (seen := []) (m := emptyManager) (m' := m); clear Hind.
  - intros _ m0 m1 now jitter a HP Hclean Hing.
    by eapply ingestAccountUpdate_pending.
  - intros _ m0 m1 t HP Hs. simpl in Hs.
    destruct (fireCallbacks t (callbackManager m0)) as [[cm evs]|] eqn:Hf; [|done].
    simpl in Hs. simplify_eq. cbn [callbackManager].
    apply fireCallbacks_loop_sound in Hf as (fired & Hperm & _).
    pose proof (pending_perm i _ _ _ Hperm). lia.
  - done.
  - simpl. lia.
  - done.
Qed.

(** * The properties of the specification *)

(** C1 as stated fails: "A" is evicted from the ranking by three
    identifiers of more tokens, and its next version is stored next to
    the older one, which remains in the ledger. *)
Lemma ledger_keeps_older_version_after_eviction :
  ∃ m, run stream_evicted_returns emptyManager = Some m ∧
       indexedAccounts (accountIndexer m) !! ("A", 1) = Some (sample "A" "user" 1 1 5) ∧
       indexedAccounts (accountIndexer m) !! ("A", 2) = Some (sample "A" "user" 7 2 20).
Proof. eexists. split_and!; by vm_compute. Qed.

(** C1, amended. Take a run of updates of any identifiers and
    categories, sweeps included, and an identifier [i] with an update in
    it, such that no update of [i] returns unranked (arrives while the
    ledger holds [i] and the ranking of the update's category does not).
    Afterwards the ledger holds exactly one snapshot of [i]: an update
    [w] of the run, stored under (i, version of w), whose version is the
    greatest among the updates of [i], in whatever order they arrived. A
    run without sweeps is always defined. *)
Theorem identifier_ledger_max_version ss i :
  some_ingest returns_unranked i ss emptyManager = false ->
  i ∈ id <$> ingested ss ->
  (ingestOnly ss -> is_Some (run ss emptyManager)) ∧
  ∀ m, run ss emptyManager = Some m ->
    ∃ w, w ∈ ingested ss ∧ id w = i ∧
         (∀ a, a ∈ ingested ss -> id a = i -> version a <= version w) ∧
         indexedAccounts (accountIndexer m) !! key_of w = Some w ∧
         ∀ k : AccountKey, k.1 = i ->
           is_Some (indexedAccounts (accountIndexer m) !! k) -> k = key_of w.
Proof.
  intros Hno Hi. split.
  - intros Hss.
    destruct (run_ingestOnly_total ss emptyManager Hss emptyManager_in_range)
      as (m & -> & _). done.
  - intros m Hrun.
    destruct (run_ledger_tracks i ss m Hno Hrun) as (_ & Hkeys & Hone & _ & Hmax).
    apply list_elem_of_fmap in Hi as (u & -> & Hu).
    destruct (Hmax u Hu eq_refl) as (w & Hw & Hidw & _).
    exists w. split_and!; [by apply (Hkeys _ _ Hw) | done | | done |].
    + intros a Ha Hida. destruct (Hmax a Ha Hida) as (x & Hx & Hidx & Hvx).
      assert (key_of x = key_of w) as Hk.
      { apply Hone; [done | done | by exists x | by exists w]. }
      rewrite Hk in Hx. by simplify_eq.
    + intros k Hk Hsome. apply Hone; [done | done | done | by exists w].
Qed.

(** "account2" is superseded after "account1" has been, and is evicted
    from the ranking later on: the ledger holds its version 2 alone. *)
Lemma identifier_ledger_max_version_witness :
  ∃ w, version w = 2 ∧
       indexedAccounts (accountIndexer state_mixed) !! ("account2", version w) = Some w ∧
       ∀ k : AccountKey, k.1 = "account2" ->
         is_Some (indexedAccounts (accountIndexer state_mixed) !! k) -> k = key_of w.
Proof.
  destruct (identifier_ledger_max_version stream_mixed "account2") as [_ Hmax].
  - by vm_compute.
  - vm_compute. apply elem_of_cons. right. apply elem_of_head.
  - destruct (Hmax state_mixed) as (w & Hw & Hid & Hle & Hledger & Honly);
      [by vm_compute|].
    exists w. split_and!; [|by rewrite <- Hid|done].
    assert (2 <= version w) as H2.
    { apply (Hle (sample "account2" "user" 45 2 1000)); [|done].
      do 3 (apply elem_of_cons; right). apply elem_of_head. }
    assert (version w <= 2); [|lia].
    revert Hw Hid. clear. intros Hw Hid.
    repeat (apply elem_of_cons in Hw as [->|Hw]); simpl in *; try lia; try done.
    by apply elem_of_nil in Hw.
Defined.

(** C3. In a state reached by a run, an update whose version is not
    above the version that the ranking of its category holds for its
    identifier is dropped: the manager (ledger, rankings, callback heap
    and index) is returned as it was. *)
Theorem stale_update_changes_nothing ss m now jitter account e :
  run ss emptyManager = Some m ->
  e ∈ ranked m (accountType account) ->
  id e = id account ->
  version account <= version e ->
  ingestAccountUpdate now jitter account m = Some m.
Proof.
  intros Hrun He Hid Hv.
  pose proof (run_ranking_ok ss _ _ emptyManager_ranking_ok Hrun) as Hok.
  destruct (ranked_ok m (accountType account) Hok) as (_ & Hnd & _).
  destruct (ingestAccountUpdate_cases now jitter account m)
    as [[Hfresh _]|[(e1 & _ & _ & _ & Heq)|(e1 & e' & r & He1 & Hid1 & Hv1 & _)]].
  - by destruct (Hfresh e He).
  - done.
  - assert (e1 = e) as -> by (eapply NoDup_fmap_eq; [done..|congruence]).
    lia.
Qed.

Lemma stale_update_changes_nothing_witness :
  ingestAccountUpdate 20 3 (sample "account1" "user" 900 3 0) state_one_id
  = Some state_one_id.
Proof.
  apply (stale_update_changes_nothing stream_one_id state_one_id 20 3
           (sample "account1" "user" 900 3 0)
           (sample "account1" "user" 50 3 1000)).
  - by vm_compute.
  - vm_compute. apply elem_of_cons. by left.
  - done.
  - simpl. lia.
Defined.

(** C4. After any run every ranking holds at most K = 3 entries and no
    two entries of one ranking share an identifier. A run without sweeps
    is always defined. *)
Theorem ranking_bounded_and_duplicate_free ss :
  (ingestOnly ss -> is_Some (run ss emptyManager)) ∧
  ∀ m accType pq,
    run ss emptyManager = Some m ->
    highestTokenAccounts (accountIndexer m) !! accType = Some pq ->
    (length pq <= 3)%nat ∧ NoDup (id <$> pq).
Proof.
  split.
  - intros Hss.
    destruct (run_ingestOnly_total ss emptyManager Hss emptyManager_in_range)
      as (m & -> & _). done.
  - intros m accType pq Hrun Hpq.
    pose proof (run_ranking_ok ss _ _ emptyManager_ranking_ok Hrun) as Hok.
    destruct (Hok accType pq Hpq) as (Hlen & Hnd & _). done.
Qed.

Lemma ranking_bounded_and_duplicate_free_witness :
  (length (ranked state_five "user") <= 3)%nat ∧
  NoDup (id <$> ranked state_five "user").
Proof.
  destruct (ranking_bounded_and_duplicate_free stream_five) as [_ Hok].
  apply (Hok state_five "user"); by vm_compute.
Defined.

(** C5. When the insert of the accept path makes the ranking of the
    update's type hold more than K = 3 entries, exactly one entry leaves
    it, and that entry has the least tokens of all entries held (the
    update included). *)
Theorem overflow_evicts_one_of_least_tokens now jitter account m :
  (3 < length (account :: ranked m (accountType account)))%nat ->
  ∃ m' e,
    accept now jitter account m = Some m' ∧
    account :: ranked m (accountType account)
      ≡ₚ e :: ranked m' (accountType account) ∧
    ∀ x, x ∈ account :: ranked m (accountType account) -> tokens e <= tokens x.
Proof.
  intros Hlen.
  destruct (accept_spec now jitter account m) as (pq2 & Hev & Heq).
  destruct Hev as [[Hle _]|[_ (e & Hperm & Hmin)]].
  { unfold K in Hle. lia. }
  eexists _, e. split; [done|]. split; [|done].
  unfold ranked, ranked_in at 2. simpl. by rewrite lookup_insert_eq.
Qed.

Lemma overflow_evicts_one_of_least_tokens_witness :
  ∃ m' e,
    accept 0 0 (sample "E" "user" 25 1 5) state_three = Some m' ∧
    sample "E" "user" 25 1 5 :: ranked state_three "user"
      ≡ₚ e :: ranked m' "user" ∧
    tokens e <= 20.
Proof.
  destruct (overflow_evicts_one_of_least_tokens 0 0
              (sample "E" "user" 25 1 5) state_three)
    as (m' & e & Hacc & Hperm & Hmin).
  - vm_compute. lia.
  - exists m', e. split_and!; [done..|].
    apply (Hmin (sample "B" "user" 20 1 10)).
    vm_compute. apply elem_of_cons. right. apply elem_of_cons. by left.
Defined.

(** C10. When no entry of the ranking of the update's category carries
    the update's identifier, the update is accepted whatever its
    version: the snapshot is stored in the ledger under (id, version),
    the ranking of the category becomes the old entries and the update
    less the evicted one, and a callback is scheduled on the untouched
    callback manager. Nothing is cancelled and no ledger key is erased,
    also when the ledger or the callback heap already hold the
    identifier. *)
Theorem unranked_update_accepted_unconditionally now jitter account m :
  Forall (λ e, id e ≠ id account) (ranked m (accountType account)) ->
  ∃ pq2,
    evicted (account :: ranked m (accountType account)) pq2 ∧
    ingestAccountUpdate now jitter account m =
    Some (mkAccountManager
            (scheduleCallback account (fireTime now jitter account) (callbackManager m))
            (mkAccountIndexer
               (<[accountType account := pq2]> (highestTokenAccounts (accountIndexer m)))
               (<[key_of account := account]> (indexedAccounts (accountIndexer m))))).
Proof.
  intros Hfresh. rewrite Forall_forall in Hfresh.
  destruct (ingestAccountUpdate_cases now jitter account m)
    as [[_ Heq]|[(e & He & Hid & _)|(e & e' & r & He & Hid & _)]].
  - rewrite Heq. apply accept_spec.
  - by destruct (Hfresh e He).
  - by destruct (Hfresh e He).
Qed.

(** After four identifiers, "A" is out of the ranking but still in the
    ledger (version 5) and in the callback heap; version 1 of "A" is
    accepted next to it. *)
Lemma unranked_update_accepted_unconditionally_witness :
  indexedAccounts (accountIndexer state_four) !! ("A", 5)
    = Some (sample "A" "user" 1 5 5) ∧
  ∃ m', ingestAccountUpdate 0 0 (sample "A" "user" 7 1 20) state_four = Some m' ∧
        indexedAccounts (accountIndexer m') !! ("A", 5)
          = Some (sample "A" "user" 1 5 5) ∧
        indexedAccounts (accountIndexer m') !! ("A", 1)
          = Some (sample "A" "user" 7 1 20) ∧
        length (callbacks (callbackManager m'))
          = S (length (callbacks (callbackManager state_four))).
Proof.
  split; [by vm_compute|].
  destruct (unranked_update_accepted_unconditionally 0 0
              (sample "A" "user" 7 1 20) state_four) as (pq2 & Hev & Heq).
  - vm_compute. repeat constructor; done.
  - eexists. split; [exact Heq|].
    cbn [callbackManager accountIndexer indexedAccounts]. split_and!.
    + rewrite lookup_insert_ne by done. by vm_compute.
    + by rewrite lookup_insert_eq.
    + by rewrite scheduleCallback_callbacks.
Defined.

(** C9. [searchAndFilterAccounts] returns, in the iteration order of the
    ledger and each at most once, exactly the ledger snapshots whose type
    is the requested one (any type when the requested type is empty, the
    default) and whose tokens lie between the two bounds; with the
    default bounds every [int] token count passes. *)
Theorem searchAndFilterAccounts_exact m accType minTokens maxTokens :
  let ledger := indexedAccounts (accountIndexer m) in
  sublist (searchAndFilterAccounts accType minTokens maxTokens m)
          ((map_to_list ledger).*2) ∧
  (∀ a, a ∈ searchAndFilterAccounts accType minTokens maxTokens m ↔
        (∃ k, ledger !! k = Some a) ∧
        (accType = "" ∨ accountType a = accType) ∧
        minTokens <= tokens a <= maxTokens) ∧
  (∀ a, INT_MIN <= tokens a <= INT_MAX ->
        a ∈ searchAndFilterAccounts accType INT_MIN INT_MAX m ↔
        (∃ k, ledger !! k = Some a) ∧
        (accType = "" ∨ accountType a = accType)).
Proof.
  intros ledger.
  assert (∀ t lo hi a, a ∈ searchAndFilterAccounts t lo hi m ↔
            (∃ k, ledger !! k = Some a) ∧
            (t = "" ∨ accountType a = t) ∧ lo <= tokens a <= hi) as Hiff.
  { intros t lo hi a. unfold searchAndFilterAccounts.
    rewrite list_elem_of_filter, list_elem_of_fmap.
    split.
    - intros [[Hty Htok] ((k & a') & -> & Hin)].
      apply elem_of_map_to_list in Hin. split_and!; [by exists k | | lia..].
      destruct (decide (t = "")) as [|Hne]; [by left|right].
      destruct (decide (accountType a' = t)); [done|]. by destruct Hty.
    - intros [[k Hk] [Hty Htok]]. split.
      + split; [|lia]. intros [Hne Hne']. by destruct Hty.
      + exists (k, a). split; [done|]. by apply elem_of_map_to_list. }
  split_and!.
  - apply sublist_filter.
  - apply Hiff.
  - intros a Hint. rewrite Hiff. split.
    + intros (Hk & Hty & _). done.
    + intros (Hk & Hty). done.
Qed.

Lemma searchAndFilterAccounts_exact_witness :
  sample "D" "user" 4 2 20 ∈ searchAndFilterAccounts "user" INT_MIN INT_MAX state_five.
Proof.
  destruct (searchAndFilterAccounts_exact state_five "user" 0 0) as (_ & _ & Hdef).
  apply Hdef.
  - by vm_compute.
  - split; [|by right]. exists ("D", 2). by vm_compute.
Defined.

(** ** The callback heap *)

(** C6 (defect). With "A" (fire time 5) and "B" (fire time 10) pending
    and indexed at their positions, cancelling "A" takes the entry of
    "B" out of the heap and the id "A" out of the index: "A" stays
    pending and "B" is gone. [removeAtIndex] moves the target to the
    last slot, but the [pop_heap] that follows moves the first slot
    there and sifts the target back in, so [pop_back] drops the entry
    that stood first. *)
Theorem cancelCallback_removes_other_entry :
  callbacks two_pending =
    [(5, sample "A" "user" 0 1 0); (10, sample "B" "user" 0 1 0)] ∧
  indexMap two_pending = {[ "A" := 0%nat; "B" := 1%nat ]} ∧
  ∃ cm', cancelCallback (sample "A" "user" 0 1 0) two_pending = Some cm' ∧
         callbacks cm' = [(5, sample "A" "user" 0 1 0)] ∧
         indexMap cm' = {[ "B" := 0%nat ]}.
Proof.
  split_and!; [by vm_compute..|]. eexists. split_and!; by vm_compute.
Qed.

(** [scheduleCallback] records the slot of the new entry before
    [push_heap] moves it and records nothing for the entries that move:
    here the index has "A" at 0 and "B" at 1 while the vector holds them
    the other way round, and cancelling "B" drops the entry of "A". *)
Lemma scheduleCallback_leaves_index_stale :
  callbacks two_pending_sifted =
    [(5, sample "B" "user" 0 1 0); (10, sample "A" "user" 0 1 0)] ∧
  indexMap two_pending_sifted = {[ "A" := 0%nat; "B" := 1%nat ]} ∧
  ∃ cm', cancelCallback (sample "B" "user" 0 1 0) two_pending_sifted = Some cm' ∧
         callbacks cm' = [(5, sample "B" "user" 0 1 0)] ∧
         indexMap cm' = {[ "A" := 0%nat ]}.
Proof.
  split_and!; [by vm_compute..|]. eexists. split_and!; by vm_compute.
Qed.

(** C7 (defect). With "A", "B" and "C" pending at fire times 1, 2 and 5,
    a sweep at time 3 fires "A" only: "B", due since time 2, stays
    pending behind "C", which the comparator-less [pop_heap] has put
    first. The index loses "C", the id of the new first entry, and keeps
    the id "A" of the entry that fired. *)
Theorem fireCallbacks_leaves_due_entry :
  callbacks three_pending =
    [(1, sample "A" "user" 0 1 0); (2, sample "B" "user" 0 1 0);
     (5, sample "C" "user" 0 1 0)] ∧
  indexMap three_pending = {[ "A" := 0%nat; "B" := 1%nat; "C" := 2%nat ]} ∧
  ∃ cm', fireCallbacks 3 three_pending = Some (cm', [("A", 1)]) ∧
         callbacks cm' =
           [(5, sample "C" "user" 0 1 0); (2, sample "B" "user" 0 1 0)] ∧
         indexMap cm' = {[ "A" := 0%nat; "B" := 1%nat ]}.
Proof.
  split_and!; [by vm_compute..|]. eexists. split_and!; by vm_compute.
Qed.

(** A sweep that fires the last entry of the vector reads the id of a
    destroyed element. *)
Lemma fireCallbacks_emptying_undefined : fireCallbacks 9 three_pending = None.
Proof. by vm_compute. Qed.

(** C8 as stated fails: after four identifiers in one category the first
    one is out of the ranking; its next update is accepted without any
    cancel and the heap holds two pending entries for it. No
    [cancelCallback] runs in this run. *)
Lemma two_pending_after_eviction :
  ∃ m, run stream_five emptyManager = Some m ∧
       ¬ one_pending_per_id (callbackManager m).
Proof.
  exists state_five. split; [by vm_compute|].
  unfold one_pending_per_id. intros Hnd.
  assert ((λ c : Callback, id c.2) <$> callbacks (callbackManager state_five)
          = ["A"; "B"; "C"; "D"; "A"]) as Heq by (vm_compute; reflexivity).
  assert (NoDup ["A"; "B"; "C"; "D"; "A"]) as Hnd'
    by (rewrite <- Heq; exact Hnd).
  clear Hnd Heq. apply NoDup_cons in Hnd' as [Hnotin _].
  apply Hnotin. do 3 (apply elem_of_cons; right). apply elem_of_cons. by left.
Qed.

(** C8, amended. Take a run and an identifier [i] such that every
    update of [i] that finds a callback of [i] pending finds [i] in the
    ranking of its category and, when it supersedes, finds that callback
    in the last slot of the vector with the index pointing there. At
    every point of the run (after [ss1], with [ss2] to come) at most one
    callback of [i] is pending. When the next update supersedes [i] and a
    callback of [i] is pending, the update is ingested, exactly that
    callback is cancelled and exactly one is scheduled, the update with
    its fire time: the pending entries afterwards are the others and the
    new one. *)
Theorem supersession_cancels_one_schedules_one ss1 ss2 i m :
  some_ingest cancel_misses i (ss1 ++ ss2) emptyManager = false ->
  run ss1 emptyManager = Some m ->
  (length (pending i (callbackManager m)) <= 1)%nat ∧
  ∀ now jitter account ss3 e,
    ss2 = Ingest now jitter account :: ss3 -> id account = i ->
    e ∈ ranked m (accountType account) -> id e = i ->
    version e < version account ->
    pending i (callbackManager m) ≠ [] ->
    ∃ m' rest old,
      ingestAccountUpdate now jitter account m = Some m' ∧
      callbacks (callbackManager m) = rest ++ [old] ∧
      pending i (callbackManager m) = [old] ∧
      callbacks (callbackManager m')
        ≡ₚ (fireTime now jitter account, account) :: rest ∧
      pending i (callbackManager m') ≡ₚ [(fireTime now jitter account, account)].
Proof.
  intros Hno Hrun.
  destruct (some_ingest_app _ _ _ _ _ Hno) as [Hno1 Hno2].
  specialize (Hno2 m Hrun).
  pose proof (run_pending i ss1 m Hno1 Hrun) as Hone.
  split; [done|].
  intros now jitter account ss3 e -> Hid He Hide Hv Hpend.
  pose proof (some_ingest_cons _ _ _ _ _ _ _ Hno2 Hid) as Hclean.
  pose proof (run_ranking_ok ss1 _ _ emptyManager_ranking_ok Hrun) as Hok.
  destruct (ranked_ok m (accountType account) Hok) as (_ & Hnd & _).
  unfold cancel_misses in Hclean. rewrite Hid in Hclean.
  destruct (pending i (callbackManager m)) as [|c l] eqn:Hp; [done|].
  apply orb_false_iff in Hclean as [_ Hlast].
  rewrite (supersedes_true m account e He) in Hlast by (done || congruence).
  simpl in Hlast. apply negb_false_iff in Hlast. rewrite <- Hide in Hlast.
  destruct (cancelCallback_in_last_slot e _ Hlast) as (rest & old & Hcbs & Hido & Hc).
  assert (pending i (mkCallbackManager rest (delete (id e) (indexMap (callbackManager m))))
          = [] ∧ c :: l = [old]) as [Hrest Hold].
  { assert (l = []) as -> by (destruct l; [done|simpl in Hone; lia]).
    unfold pending in Hp |- *. cbn [callbacks].
    rewrite Hcbs, filter_app in Hp. rewrite filter_cons_True in Hp by congruence.
    destruct (filter _ rest) as [|x xs]; [by simplify_eq|]. by destruct xs. }
  destruct (ingestAccountUpdate_cases now jitter account m)
    as [[Hfresh _]|[(e1 & He1 & Hid1 & Hv1 & _)
                   |(e1 & e' & r & He1 & Hid1 & Hv1 & Hid' & Hperm & Heq)]].
  - destruct (Hfresh e He). congruence.
  - assert (e1 = e) as -> by (eapply NoDup_fmap_eq; [done..|congruence]). lia.
  - assert (e1 = e) as -> by (eapply NoDup_fmap_eq; [done..|congruence]).
    rewrite Hc in Heq. simpl in Heq.
    destruct (accept_spec now jitter account
                (superseded m (mkCallbackManager rest
                                 (delete (id e) (indexMap (callbackManager m))))
                   (accountType account) e r)) as (pq2 & _ & Hacc).
    rewrite Hacc in Heq.
    eexists _, rest, old. split_and!; [exact Heq | done | done | |].
    + cbn [callbackManager superseded]. apply scheduleCallback_callbacks.
    + cbn [callbackManager superseded]. rewrite pending_schedule.
      rewrite decide_True by done. by rewrite Hrest.
Qed.

Lemma supersession_cancels_one_schedules_one_witness :
  ∃ m' rest,
    ingestAccountUpdate 7 3 (sample "account2" "user" 60 2 1000) state_two_ids = Some m' ∧
    callbacks (callbackManager state_two_ids)
      = rest ++ [(1000000000, sample "account2" "user" 50 1 1000)] ∧
    callbacks (callbackManager m')
      ≡ₚ (1003000007, sample "account2" "user" 60 2 1000) :: rest.
Proof.
  destruct (supersession_cancels_one_schedules_one stream_two_ids
              [Ingest 7 3 (sample "account2" "user" 60 2 1000)] "account2"
              state_two_ids) as [_ Hstep].
  - by vm_compute.
  - by vm_compute.
  - destruct (Hstep 7 3 (sample "account2" "user" 60 2 1000) []
                (sample "account2" "user" 50 1 1000))
      as (m' & rest & old & Hing & Hcbs & Hp & Hperm & _).
    + done.
    + done.
    + vm_compute.
      first [apply elem_of_head | apply elem_of_cons; right; apply elem_of_head].
    + done.
    + simpl. lia.
    + by vm_compute.
    + assert (old = (1000000000, sample "account2" "user" 50 1 1000)) as ->.
      { assert (pending "account2" (callbackManager state_two_ids)
                = [(1000000000, sample "account2" "user" 50 1 1000)]) as Hp'
          by (vm_compute; reflexivity).
        congruence. }
      by exists m', rest.
Defined.

(** Outside the second condition: "account1" and "account2" are pending
    and a higher version of "account1" arrives, whose entry stands in the
    first slot. [cancelCallback] drops the entry of "account2" (the
    defect of C6), and two entries of "account1" are pending. *)
Lemma supersession_from_first_slot_drops_other :
  (λ c : Callback, (id c.2, version c.2)) <$> callbacks (callbackManager state_two_ids)
    = [("account1", 1); ("account2", 1)] ∧
  (λ c : Callback, (id c.2, version c.2)) <$> callbacks (callbackManager state_two_ids_next)
    = [("account1", 1); ("account1", 3)].
Proof. split; by vm_compute. Qed.

(** ** The ledger, identifier by identifier *)

(** C2 as stated fails: after four identifiers in one category the first
    one is out of the ranking, and its next update (here an older
    version) is stored next to the snapshot the ledger already holds. *)
Lemma ledger_two_entries_after_eviction :
  ∃ m, run stream_five emptyManager = Some m ∧ ¬ ledger_one_per_id m.
Proof.
  exists state_five. split; [by vm_compute|].
  intros Hone. specialize (Hone ("A", 5) ("A", 1)).
  assert (("A", 5) = ("A", 1) :> AccountKey) as Heq; [|done].
  apply Hone; [| |done].
  - exists (sample "A" "user" 1 5 5). by vm_compute.
  - exists (sample "A" "user" 7 1 20). by vm_compute.
Qed.

(** The same happens when one identifier arrives under two categories. *)
Lemma ledger_two_entries_across_types :
  ∃ m, run stream_two_types emptyManager = Some m ∧ ¬ ledger_one_per_id m.
Proof.
  eexists. split; [by vm_compute|].
  intros Hone. specialize (Hone ("A", 1) ("A", 2)).
  assert (("A", 1) = ("A", 2) :> AccountKey) as Heq; [|done].
  apply Hone; [| |done].
  - exists (sample "A" "user" 1 1 5). by vm_compute.
  - exists (sample "A" "admin" 1 2 5). by vm_compute.
Qed.

(** C2, amended. At every point of a run (after [ss1], with [ss2] still
    to come) and for every identifier [i] none of whose updates returns
    unranked, the ledger holds at most one entry of [i]; the entry is an
    update of the run so far, stored under its own (id, version), and no
    update of [i] so far has a higher version. When the next update is
    one of [i] and the ledger holds [i], a version that is not higher
    leaves the ledger as it was, and a higher one erases the old key and
    stores the update. *)
Theorem ledger_one_entry_per_identifier ss1 ss2 i m :
  some_ingest returns_unranked i (ss1 ++ ss2) emptyManager = false ->
  run ss1 emptyManager = Some m ->
  let ledger := indexedAccounts (accountIndexer m) in
  (∀ k1 k2 : AccountKey,
     k1.1 = i -> k2.1 = i -> is_Some (ledger !! k1) -> is_Some (ledger !! k2) ->
     k1 = k2) ∧
  (∀ (k : AccountKey) x,
     k.1 = i -> ledger !! k = Some x ->
     k = key_of x ∧ x ∈ ingested ss1 ∧
     ∀ b, b ∈ ingested ss1 -> id b = i -> version b <= version x) ∧
  (∀ now jitter a ss3 m' (k : AccountKey) old,
     ss2 = Ingest now jitter a :: ss3 -> id a = i ->
     ingestAccountUpdate now jitter a m = Some m' ->
     k.1 = i -> ledger !! k = Some old ->
     (version a <= version old -> indexedAccounts (accountIndexer m') = ledger) ∧
     (version old < version a ->
      indexedAccounts (accountIndexer m') = <[key_of a := a]> (delete k ledger))).
Proof.
  intros Hno Hrun ledger.
  destruct (some_ingest_app _ _ _ _ _ Hno) as [Hno1 Hno2].
  specialize (Hno2 m Hrun).
  destruct (run_ledger_tracks i ss1 m Hno1 Hrun) as (Hok & Hkeys & Hone & Hrk & Hmax).
  fold ledger in Hkeys, Hone, Hrk, Hmax.
  assert (∀ (k : AccountKey) x e c,
            k.1 = i -> ledger !! k = Some x -> e ∈ ranked m c -> id e = i ->
            k = key_of e ∧ x = e) as Hranked.
  { intros k x e c Hk Hx He Hide. pose proof (Hrk c e He Hide) as Hle.
    assert (k = key_of e) as ->.
    { apply Hone; [done | done | by exists x | by exists e]. }
    split; [done|congruence]. }
  split_and!.
  - exact Hone.
  - intros k x Hk Hx. destruct (Hkeys k x Hx) as [-> Hseen]. split_and!; [done..|].
    intros b Hb Hidb. destruct (Hmax b Hb Hidb) as (y & Hy & Hidy & Hvy).
    assert (key_of y = key_of x) as Heq.
    { apply Hone; [done | done | by exists y | by exists x]. }
    rewrite Heq in Hy. by simplify_eq.
  - intros now jitter a ss3 m' k old -> Hida Hing Hk Hold.
    pose proof (some_ingest_cons _ _ _ _ _ _ _ Hno2 Hida) as Hclean.
    apply ingestAccountUpdate_ledger in Hing
      as [[-> (e & He & Hide & Hv)]
         |(pq2 & cm1 & [(Hl & Hfresh & _)
                       |(e & r & Hl & He & Hide & Hv & _)] & _)].
    + destruct (Hranked k old e _ Hk Hold He) as [_ ->]; [congruence|].
      split; [done|lia].
    + exfalso.
      assert (ledger !! k = None) as Hnone
        by (apply (returns_unranked_false m a k Hclean Hfresh); congruence).
      congruence.
    + destruct (Hranked k old e _ Hk Hold He) as [-> ->]; [congruence|].
      split; [lia|done].
Qed.

(** "account2" is replaced after "account1" has been superseded. *)
Lemma ledger_one_entry_per_identifier_witness :
  ∃ m', ingestAccountUpdate 3 0 (sample "account2" "user" 45 2 1000) state_two_ids_next
        = Some m' ∧
        indexedAccounts (accountIndexer m')
        = <[("account2", 2) := sample "account2" "user" 45 2 1000]>
            (delete ("account2", 1) (indexedAccounts (accountIndexer state_two_ids_next))).
Proof.
  destruct (ledger_one_entry_per_identifier
              (stream_two_ids ++ [Ingest 0 0 (sample "account1" "user" 50 3 1000)])
              [Ingest 3 0 (sample "account2" "user" 45 2 1000)] "account2"
              state_two_ids_next) as (_ & _ & Hreplace).
  - by vm_compute.
  - by vm_compute.
  - destruct (ingestAccountUpdate 3 0 (sample "account2" "user" 45 2 1000)
                state_two_ids_next) as [m'|] eqn:Hing; [|by vm_compute in Hing].
    exists m'. split; [done|].
    apply (Hreplace 3 0 (sample "account2" "user" 45 2 1000) [] m'
             ("account2", 1) (sample "account2" "user" 50 1 1000)).
    + done.
    + done.
    + exact Hing.
    + done.
    + by vm_compute.
    + simpl. lia.
Defined.

(** * Further facts: [pop_heap] keeps the heap order *)

Lemma parent_bounds i : (0 < i)%nat -> (2 * parent i + 1 <= i <= 2 * parent i + 2)%nat.
Proof.
  intros Hi. unfold parent.
  pose proof (Nat.div_mod_eq (i - 1) 2) as Hdm.
  pose proof (Nat.mod_upper_bound (i - 1) 2) as Hmod. lia.
Qed.

Section HeapApp.
Context {T : Type} (comp : T -> T -> bool).
Implicit Types (c t : list T) (i j hole len : nat) (v x : T).

(** The loops only touch the slots below the hole or below [len]: a
    tail behind them is carried along. *)
Lemma push_heap_loop_app fuel c t hole top v :
  (hole < length c)%nat ->
  push_heap_loop comp fuel (c ++ t) hole top v
  = push_heap_loop comp fuel c hole top v ++ t.
Proof.
  revert c hole. induction fuel as [|fuel IH]; intros c hole Hh;
    cbn [push_heap_loop].
  { by rewrite insert_app_l. }
  assert ((hole - 1) / 2 <= hole)%nat as Hle.
  { transitivity (hole - 1)%nat; [apply Nat.Div0.div_le_upper_bound|]; lia. }
  destruct (top <? hole)%nat; [|by rewrite insert_app_l].
  rewrite lookup_app_l by lia.
  destruct (c !! ((hole - 1) / 2)%nat) as [p|]; [|by rewrite insert_app_l].
  destruct (comp p v); [|by rewrite insert_app_l].
  rewrite insert_app_l by done. apply IH. rewrite length_insert. lia.
Qed.

Lemma adjust_heap_loop_app fuel c t hole len :
  (len <= length c)%nat ->
  adjust_heap_loop comp fuel (c ++ t) hole len
  = ((adjust_heap_loop comp fuel c hole len).1 ++ t,
     (adjust_heap_loop comp fuel c hole len).2).
Proof.
  revert c hole. induction fuel as [|fuel IH]; intros c hole Hlen;
    cbn [adjust_heap_loop]; [done|].
  destruct (hole <? (len - 1) / 2)%nat eqn:Hlt; [|done].
  apply Nat.ltb_lt in Hlt.
  assert (2 * ((len - 1) / 2) <= len - 1)%nat as Hdiv
    by (apply Nat.Div0.mul_div_le).
  rewrite !lookup_app_l by lia.
  destruct (c !! (2 * (hole + 1))%nat) as [r|]; [|done].
  destruct (c !! (2 * (hole + 1) - 1)%nat) as [l|]; [|done].
  rewrite insert_app_l by lia. apply IH. by rewrite length_insert.
Qed.

Lemma adjust_heap_app c t hole len v :
  (hole < len)%nat -> (len <= length c)%nat ->
  adjust_heap comp (c ++ t) hole len v = adjust_heap comp c hole len v ++ t.
Proof.
  intros Hh Hlen. unfold adjust_heap, push_heap_aux.
  rewrite adjust_heap_loop_app by done.
  destruct (adjust_heap_loop comp len c hole len) as [c1 hole1] eqn:Hloop.
  apply adjust_heap_loop_spec in Hloop as (Hlen1 & Hh1 & Hh1c & _ & _); [|lia..].
  cbn [fst snd].
  destruct (Nat.even len && (hole1 =? (len - 2) / 2)%nat) eqn:Heven.
  - apply andb_true_iff in Heven as [Heven Hh2]. apply Nat.eqb_eq in Hh2.
    assert (2 * ((len - 2) / 2) <= len - 2)%nat as Hdiv
      by (apply Nat.Div0.mul_div_le).
    assert (2 <= len)%nat.
    { destruct len as [|[|len]]; [lia | done | lia]. }
    rewrite lookup_app_l by lia.
    destruct (c1 !! (2 * (hole1 + 1) - 1)%nat) as [l|].
    + rewrite insert_app_l by lia.
      apply push_heap_loop_app. rewrite length_insert. lia.
    + apply push_heap_loop_app. lia.
  - apply push_heap_loop_app. lia.
Qed.

(** [pop_heap] on at least two elements, with the last slot split off. *)
Lemma pop_heap_snoc x c v :
  pop_heap comp (x :: c ++ [v]) = adjust_heap comp (x :: c) 0 (S (length c)) v ++ [x].
Proof.
  unfold pop_heap. cbn [length]. rewrite length_app. cbn [length].
  replace (1 <? S (length c + 1))%nat with true
    by (symmetry; apply Nat.ltb_lt; lia).
  replace (S (length c + 1) - 1)%nat with (S (length c)) by lia.
  change (x :: c ++ [v]) with ((x :: c) ++ [v]).
  rewrite lookup_app_r by (simpl; lia).
  replace (S (length c) - length (x :: c))%nat with 0%nat by (simpl; lia).
  cbn [lookup list_lookup]. rewrite lookup_app_l by (simpl; lia). cbn [lookup list_lookup].
  rewrite insert_app_r_alt by (simpl; lia).
  replace (S (length c) - length (x :: c))%nat with 0%nat by (simpl; lia).
  cbn [insert list_insert].
  apply adjust_heap_app; simpl; lia.
Qed.
End HeapApp.

Section HeapPopOrder.
Context {T : Type} (key : T -> Z) (comp : T -> T -> bool).
Hypothesis comp_key : ∀ x y, comp x y = (key y <? key x).
Implicit Types (c : list T) (i j hole len : nat) (v x p : T).

Lemma heap_ordered_with_hole c : heap_ordered key c -> heap_with_hole key c 0.
Proof.
  intros Hheap. split.
  - intros i x p Hi _ _ Hx Hp. by eapply Hheap.
  - intros i x p Hpos. lia.
Qed.

(** One move of the hole to the child [ch] that is not above its
    sibling. *)
Lemma heap_with_hole_down c hole ch vch :
  heap_with_hole key c hole ->
  (0 < ch)%nat -> parent ch = hole -> c !! ch = Some vch ->
  (∀ i x, (0 < i)%nat -> parent i = hole -> i ≠ ch -> c !! i = Some x ->
          key vch <= key x) ->
  heap_with_hole key (<[hole := vch]> c) ch.
Proof.
  intros [Hrest Hgrand] Hch Hpar Hvch Hsib.
  pose proof (parent_bounds ch Hch) as Hb.
  assert (hole < length c)%nat as Hlen.
  { apply lookup_lt_Some in Hvch. lia. }
  split.
  - intros i x p Hi Hne Hpne Hx Hp.
    pose proof (parent_bounds i Hi) as Hbi.
    destruct (decide (i = hole)) as [->|Hih].
    + rewrite list_lookup_insert_eq in Hx by done.
      assert (x = vch) as -> by congruence.
      rewrite list_lookup_insert_ne in Hp by lia.
      by apply (Hgrand ch vch p).
    + rewrite list_lookup_insert_ne in Hx by done.
      destruct (decide (parent i = hole)) as [Hpi|Hpi].
      * rewrite Hpi, list_lookup_insert_eq in Hp by done.
        assert (p = vch) as -> by congruence.
        by apply (Hsib i x).
      * rewrite list_lookup_insert_ne in Hp by done.
        by apply (Hrest i x p).
  - intros i x p _ Hi Hpi Hx Hp.
    pose proof (parent_bounds i Hi) as Hbi.
    rewrite Hpar, list_lookup_insert_eq in Hp by done.
    assert (p = vch) as -> by congruence.
    rewrite list_lookup_insert_ne in Hx by lia.
    apply (Hrest i x vch); [done | lia | lia | done | by rewrite Hpi].
Qed.

Lemma adjust_heap_loop_heap fuel c hole len c1 hole1 :
  length c = len -> (len - hole <= fuel)%nat -> (hole < len)%nat ->
  heap_with_hole key c hole ->
  adjust_heap_loop comp fuel c hole len = (c1, hole1) ->
  heap_with_hole key c1 hole1 ∧ length c1 = len ∧ (hole1 < len)%nat ∧
  ((len - 1) / 2 <= hole1)%nat.
Proof.
  revert c hole. induction fuel as [|fuel IH]; intros c hole Hlen Hfuel Hh Hheap Heq;
    cbn [adjust_heap_loop] in Heq; [lia|].
  destruct (hole <? (len - 1) / 2)%nat eqn:Hlt.
  2:{ apply Nat.ltb_ge in Hlt. by simplify_eq. }
  apply Nat.ltb_lt in Hlt.
  assert (2 * ((len - 1) / 2) <= len - 1)%nat as Hdiv
    by (apply Nat.Div0.mul_div_le).
  destruct (c !! (2 * (hole + 1))%nat) as [r|] eqn:Hr.
  2:{ apply lookup_ge_None in Hr. lia. }
  destruct (c !! (2 * (hole + 1) - 1)%nat) as [l|] eqn:Hl.
  2:{ apply lookup_ge_None in Hl. lia. }
  assert (parent (2 * (hole + 1)) = hole) as Hpr.
  { pose proof (parent_bounds (2 * (hole + 1))). lia. }
  assert (parent (2 * (hole + 1) - 1) = hole) as Hpl.
  { pose proof (parent_bounds (2 * (hole + 1) - 1)). lia. }
  rewrite comp_key in Heq. destruct (key l <? key r) eqn:Hcmp.
  - apply Z.ltb_lt in Hcmp.
    apply IH in Heq; rewrite ?length_insert; [done | done | lia | lia |].
    apply heap_with_hole_down; [done | lia | done | done |].
    intros i x Hi Hpi Hne Hx. pose proof (parent_bounds i Hi).
    assert (i = (2 * (hole + 1))%nat) as -> by lia. simplify_eq. lia.
  - apply Z.ltb_ge in Hcmp.
    apply IH in Heq; rewrite ?length_insert; [done | done | lia | lia |].
    apply heap_with_hole_down; [done | lia | done | done |].
    intros i x Hi Hpi Hne Hx. pose proof (parent_bounds i Hi).
    assert (i = (2 * (hole + 1) - 1)%nat) as -> by lia. simplify_eq. lia.
Qed.

(** Sifting any value in from the root of a heap gives a heap. *)
Lemma adjust_heap_heap c v :
  heap_ordered key c -> c ≠ [] ->
  heap_ordered key (adjust_heap comp c 0 (length c) v).
Proof.
  intros Hheap Hne. unfold adjust_heap, push_heap_aux.
  assert (0 < length c)%nat as Hpos by (destruct c; simpl; [done|lia]).
  destruct (adjust_heap_loop comp (length c) c 0 (length c)) as [c1 hole1] eqn:Hloop.
  apply adjust_heap_loop_heap in Hloop as (Hhole & Hlen1 & Hh1 & Hlow);
    [| done | lia | done | by apply heap_ordered_with_hole].
  set (len := length c) in *.
  assert (2 * ((len - 1) / 2) <= len - 1 < 2 * ((len - 1) / 2) + 2)%nat as Hdiv.
  { pose proof (Nat.div_mod_eq (len - 1) 2).
    pose proof (Nat.mod_upper_bound (len - 1) 2). lia. }
  assert (∀ c2 hole2,
            heap_with_hole key c2 hole2 -> length c2 = len -> (hole2 < len)%nat ->
            (len <= 2 * hole2 + 1)%nat ->
            heap_ordered key (push_heap_loop comp hole2 c2 hole2 0 v)) as Hleaf.
  { intros c2 hole2 [Hrest Hgrand] Hlen2 Hh2 Hno.
    apply (push_heap_loop_heap key comp comp_key); [done | lia | |].
    - intros i x p Hi Hih Hx Hp. pose proof (parent_bounds i Hi).
      rewrite list_lookup_insert_ne in Hx by done.
      destruct (decide (parent i = hole2)) as [Hpi|Hpi].
      { apply lookup_lt_Some in Hx. lia. }
      rewrite list_lookup_insert_ne in Hp by done. by apply (Hrest i x p).
    - intros i x p _ Hi Hpi Hx _. pose proof (parent_bounds i Hi).
      apply lookup_lt_Some in Hx. lia. }
  destruct (Nat.even len && (hole1 =? (len - 2) / 2)%nat) eqn:Heven.
  - apply andb_true_iff in Heven as [Heven Hh2]. apply Nat.eqb_eq in Hh2.
    assert (2 <= len)%nat as H2.
    { destruct len as [|[|n]]; [lia | done | lia]. }
    assert (len = 2 * ((len - 2) / 2) + 2)%nat as Hlen2.
    { pose proof (Nat.div_mod_eq (len - 2) 2) as Hdm.
      assert ((len - 2) mod 2 = 0)%nat as Hm; [|lia].
      apply Nat.even_spec in Heven as [k Hk]. rewrite Hk.
      replace (2 * k - 2)%nat with ((k - 1) * 2)%nat by lia.
      apply Nat.Div0.mod_mul. }
    destruct (c1 !! (2 * (hole1 + 1) - 1)%nat) as [l|] eqn:Hl.
    2:{ apply lookup_ge_None in Hl. lia. }
    apply Hleaf; rewrite ?length_insert; [| done | lia | lia].
    apply heap_with_hole_down; [done | lia | | done |].
    + pose proof (parent_bounds (2 * (hole1 + 1) - 1)). lia.
    + intros i x Hi Hpi Hich Hx. pose proof (parent_bounds i Hi).
      apply lookup_lt_Some in Hx. lia.
  - apply Hleaf; [done | done | done |].
    apply andb_false_iff in Heven as [Hodd|Hneq2].
    + assert (Nat.odd len = true) as Ho by (by rewrite <- Nat.negb_even, Hodd).
      apply Nat.odd_spec in Ho as [k Hk]. rewrite Hk in Hlow |- *.
      replace (2 * k + 1 - 1)%nat with (k * 2)%nat in Hlow by lia.
      rewrite Nat.div_mul in Hlow by done. lia.
    + apply Nat.eqb_neq in Hneq2.
      destruct (Nat.even len) eqn:Hev.
      * apply Nat.even_spec in Hev as [k Hk].
        assert ((len - 2) / 2 = k - 1)%nat as Hk2.
        { rewrite Hk. replace (2 * k - 2)%nat with ((k - 1) * 2)%nat by lia.
          by rewrite Nat.div_mul. }
        assert ((len - 1) / 2 = k - 1)%nat as Hk1.
        { destruct k as [|k]; [lia|].
          rewrite Hk. replace (2 * S k - 1)%nat with (1 + k * 2)%nat by lia.
          rewrite Nat.div_add by done. simpl. lia. }
        lia.
      * assert (Nat.odd len = true) as Ho by (by rewrite <- Nat.negb_even, Hev).
        apply Nat.odd_spec in Ho as [k Hk]. rewrite Hk in Hlow |- *.
        replace (2 * k + 1 - 1)%nat with (k * 2)%nat in Hlow by lia.
        rewrite Nat.div_mul in Hlow by done. lia.
Qed.

Lemma heap_ordered_prefix c t : heap_ordered key (c ++ t) -> heap_ordered key c.
Proof.
  intros Hheap i x p Hi Hx Hp.
  apply (Hheap i x p Hi); by apply lookup_app_l_Some.
Qed.

(** [pop_heap] followed by [pop_back] leaves a heap. *)
Lemma pop_heap_pop_back_heap c :
  heap_ordered key c -> heap_ordered key (pop_back (pop_heap comp c)).
Proof.
  intros Hheap. destruct c as [|x c].
  { intros i y p _ Hy. done. }
  destruct (decide (c = [])) as [->|Hne].
  { intros i y p _ Hy. done. }
  destruct (exists_last Hne) as (c' & v & ->).
  rewrite pop_heap_snoc, pop_back_snoc.
  change (S (length c')) with (length (x :: c')).
  apply adjust_heap_heap; [|done].
  apply (heap_ordered_prefix (x :: c') [v]). done.
Qed.
End HeapPopOrder.

(** * Further properties of the callback manager *)

Lemma AccountTimeComparator_key (x y : Callback) :
  AccountTimeComparator x y = (fire_time y <? fire_time x).
Proof. done. Qed.

(** X1. [scheduleCallback] adds exactly the new entry and keeps a
    time-ordered heap time-ordered, so the first entry is then an entry
    of earliest fire time. *)
Theorem scheduleCallback_keeps_time_heap account t cm :
  time_heap cm ->
  time_heap (scheduleCallback account t cm) ∧
  callbacks (scheduleCallback account t cm) ≡ₚ (t, account) :: callbacks cm ∧
  ∃ front, head (callbacks (scheduleCallback account t cm)) = Some front ∧
           ∀ c, c ∈ callbacks (scheduleCallback account t cm) ->
                fire_time front <= fire_time c.
Proof.
  intros Hheap.
  assert (time_heap (scheduleCallback account t cm)) as Hheap'.
  { unfold time_heap, scheduleCallback. cbn [callbacks].
    by apply (push_heap_heap fire_time), Hheap. }
  split_and!; [done | apply scheduleCallback_callbacks |].
  destruct (callbacks (scheduleCallback account t cm)) as [|front l] eqn:Hcbs.
  { pose proof (scheduleCallback_callbacks account t cm) as Hp.
    rewrite Hcbs in Hp. by apply Permutation_nil_cons in Hp. }
  exists front. split; [done|]. intros c Hc.
  unfold time_heap in Hheap'. rewrite Hcbs in Hheap'.
  by eapply (heap_ordered_root_min fire_time).
Qed.

Lemma scheduleCallback_keeps_time_heap_witness :
  ∃ front, head (callbacks three_pending) = Some front ∧ fire_time front <= 2.
Proof.
  destruct (scheduleCallback_keeps_time_heap (sample "C" "user" 0 1 0) 5
              (scheduleCallback (sample "B" "user" 0 1 0) 2
                 (scheduleCallback (sample "A" "user" 0 1 0) 1 (mkCallbackManager [] ∅))))
    as (_ & _ & front & Hfront & Hmin).
  - intros i x p Hi Hx Hp. vm_compute in Hx, Hp.
    destruct i as [|[|[|i]]]; try done; simplify_eq; by vm_compute.
  - exists front. split; [done|].
    apply (Hmin (2, sample "B" "user" 0 1 0)).
    vm_compute. apply elem_of_cons. right. apply elem_of_cons. by left.
Defined.

(** X2. When [index] is inside the vector and is not its last slot,
    [removeAtIndex] does not take out the entry at [index]: it takes out
    the first entry of the vector (the last one when [index] is 0) and
    records [index] for the id of the entry that stood last. *)
Theorem removeAtIndex_not_last index cm first back :
  (index < length (callbacks cm) - 1)%nat ->
  callbacks cm !! 0%nat = Some first ->
  callbacks cm !! (length (callbacks cm) - 1)%nat = Some back ->
  ∃ cm',
    removeAtIndex index cm = Some cm' ∧
    callbacks cm ≡ₚ (if decide (index = 0%nat) then back else first) :: callbacks cm' ∧
    indexMap cm' = <[id back.2 := index]> (indexMap cm).
Proof.
  intros Hidx Hfirst Hback. unfold removeAtIndex. cbv zeta.
  remember (callbacks cm) as cbs eqn:Hcbs.
  remember (length cbs) as n eqn:Hnlen.
  case_bool_decide as Hn; [lia|].
  case_bool_decide as Hlast; [|lia].
  destruct (cbs !! index) as [target|] eqn:Htarget.
  2:{ apply lookup_ge_None in Htarget. lia. }
  rewrite Hback. simpl.
  assert (<[(n - 1)%nat := target]> (<[index := back]> cbs) ≡ₚ cbs) as Hperm1.
  { rewrite insert_swap_perm; [| lia | done | lia]. by rewrite list_insert_id. }
  destruct (<[(n - 1)%nat := target]> (<[index := back]> cbs))
    as [|x cbs1'] eqn:Hcbs1.
  { apply Permutation_length in Hperm1. simpl in Hperm1. lia. }
  assert (x = if decide (index = 0%nat) then back else first) as Hx.
  { assert (<[(n - 1)%nat := target]> (<[index := back]> cbs) !! 0%nat = Some x) as H0
      by (by rewrite Hcbs1).
    rewrite list_lookup_insert_ne in H0 by lia.
    case_decide as Hi0.
    - subst index. rewrite list_lookup_insert_eq in H0 by lia. congruence.
    - rewrite list_lookup_insert_ne in H0 by done. congruence. }
  destruct (pop_heap_cons AccountTimeComparator x cbs1') as (r & -> & Hr).
  rewrite pop_back_snoc. eexists. split_and!; [done | | done].
  cbn [callbacks]. by rewrite push_heap_perm, Hr, <- Hx, <- Hperm1.
Qed.

Lemma removeAtIndex_not_last_witness :
  ∃ cm', removeAtIndex 1 three_pending = Some cm' ∧
         callbacks three_pending ≡ₚ (1, sample "A" "user" 0 1 0) :: callbacks cm'.
Proof.
  destruct (removeAtIndex_not_last 1 three_pending
              (1, sample "A" "user" 0 1 0) (5, sample "C" "user" 0 1 0))
    as (cm' & Hrm & Hperm & _).
  - vm_compute. lia.
  - by vm_compute.
  - by vm_compute.
  - by exists cm'.
Defined.

(** X3. [cancelCallback] for an id whose recorded index is not inside
    the vector reads outside the vector: it is undefined. *)
Theorem cancelCallback_index_out_of_range account cm index :
  indexMap cm !! id account = Some index ->
  (length (callbacks cm) <= index)%nat ->
  cancelCallback account cm = None.
Proof.
  intros Hix Hlen. unfold cancelCallback, removeAtIndex. rewrite Hix. cbn [callbacks].
  case_bool_decide as Hn; [done|].
  case_bool_decide as Hlast; [|lia].
  by rewrite (lookup_ge_None_2 _ _ Hlen).
Qed.

Lemma cancelCallback_index_out_of_range_witness :
  cancelCallback (sample "A" "user" 0 1 0)
    (mkCallbackManager [(5, sample "B" "user" 0 1 0)] {[ "A" := 1%nat ]}) = None.
Proof.
  apply (cancelCallback_index_out_of_range _ _ 1); [by vm_compute | simpl; lia].
Defined.

(** X5. A sweep that is defined fires only entries that are due, prints
    one notification (id, version) per fired entry in firing order, and
    neither loses nor invents entries: the pending entries before are the
    fired ones together with the pending ones after. It adds no id to the
    index, and when it has fired something at least one entry is still
    pending. *)
Theorem fireCallbacks_fires_only_due t cm cm' evs :
  fireCallbacks t cm = Some (cm', evs) ->
  ∃ fired,
    callbacks cm ≡ₚ fired ++ callbacks cm' ∧
    evs = notification <$> fired ∧
    Forall (λ c, fire_time c <= t) fired ∧
    dom (indexMap cm') ⊆ dom (indexMap cm) ∧
    (fired ≠ [] -> callbacks cm' ≠ []).
Proof. apply fireCallbacks_loop_sound. Qed.

Lemma fireCallbacks_fires_only_due_witness :
  ∃ cm' fired,
    fireCallbacks 3 three_pending = Some (cm', [("A", 1)]) ∧
    callbacks three_pending ≡ₚ fired ++ callbacks cm' ∧
    Forall (λ c, fire_time c <= 3) fired.
Proof.
  assert (∃ cm', fireCallbacks 3 three_pending = Some (cm', [("A", 1)])) as [cm' Hf].
  { eexists. by vm_compute. }
  destruct (fireCallbacks_fires_only_due 3 three_pending cm' [("A", 1)] Hf)
    as (fired & Hperm & _ & Hall & _).
  by exists cm', fired.
Defined.

Lemma fireCallbacks_loop_None fuel t cm :
  (length (callbacks cm) <= fuel)%nat ->
  fireCallbacks_loop fuel t cm = None ↔
  callbacks cm ≠ [] ∧ Forall (λ c, fire_time c <= t) (callbacks cm).
Proof.
  revert cm. induction fuel as [|fuel IH]; intros cm Hlen;
    cbn [fireCallbacks_loop].
  { destruct (callbacks cm); [|simpl in Hlen; lia]. split; [done|]. by intros [? _]. }
  destruct (callbacks cm) as [|front cbs] eqn:Hcbs; cbn [head].
  { split; [done|]. by intros [? _]. }
  destruct (front.1 <=? t) eqn:Hdue.
  2:{ apply Z.leb_gt in Hdue. split; [done|]. intros [_ Hall].
      apply Forall_cons in Hall as [Hf _]. unfold fire_time in Hf. lia. }
  apply Z.leb_le in Hdue.
  destruct (pop_heap_cons Callback_lt front cbs) as (r & Hpop & Hr).
  rewrite Hpop, pop_back_snoc.
  destruct (head r) as [account|] eqn:Hhead; simpl.
  - specialize (IH (mkCallbackManager r (delete (id account.2) (indexMap cm)))).
    cbn [callbacks] in IH.
    destruct (fireCallbacks_loop fuel t _) as [[cm2 evs2]|] eqn:Hrec; simpl.
    + split; [done|]. intros [_ Hall]. apply Forall_cons in Hall as [_ Hall].
      rewrite <- Hr in Hall.
      assert (Some (cm2, evs2) = None) as Hbad; [|done].
      apply IH.
      * rewrite Hr. simpl in Hlen. lia.
      * split; [|done]. by destruct r.
    + split; [|done]. intros _. split; [done|].
      destruct IH as [IH _]; [rewrite Hr; simpl in Hlen; lia|].
      destruct (IH eq_refl) as [_ Hall]. constructor; [done|]. by rewrite <- Hr.
  - split; [|done]. intros _. split; [done|].
    destruct r; [|done]. apply Permutation_nil_l in Hr. subst cbs.
    by repeat constructor.
Qed.

(** X6. A sweep is undefined exactly when the vector is not empty and
    every pending entry is due: the sweep then fires down to the last
    entry and reads the id of an element that [pop_back] has destroyed. *)
Theorem fireCallbacks_undefined_iff_all_due t cm :
  fireCallbacks t cm = None ↔
  callbacks cm ≠ [] ∧ Forall (λ c, fire_time c <= t) (callbacks cm).
Proof. by apply fireCallbacks_loop_None. Qed.

Lemma fireCallbacks_undefined_iff_all_due_witness :
  fireCallbacks 9 three_pending = None.
Proof.
  apply (fireCallbacks_undefined_iff_all_due 9 three_pending).
  split; [by vm_compute|]. vm_compute. repeat constructor; by vm_compute.
Defined.

(** * Further properties of the ranking queues *)

Lemma pq_pop_heap (pq r : PQ) : pq_heap pq -> pq_pop pq = Some r -> pq_heap r.
Proof.
  intros Hheap Hpop. unfold pq_pop in Hpop. destruct pq as [|x pq]; [done|].
  simplify_eq.
  by apply (pop_heap_pop_back_heap tokens AccountTokenComparator
              AccountTokenComparator_key).
Qed.

(** X7. [insertAccountIntoPriorityQueue] is defined on every vector,
    heap-ordered or not; the queue it returns holds the old entries and
    the new one, and it is a heap whose first entry has the least tokens
    of them all. *)
Theorem insertAccountIntoPriorityQueue_sound (pq : PQ) account :
  ∃ r top,
    insertAccountIntoPriorityQueue pq account = Some r ∧
    r ≡ₚ account :: pq ∧ pq_heap r ∧
    pq_top r = Some top ∧ ∀ x, x ∈ account :: pq -> tokens top <= tokens x.
Proof.
  destruct (insertAccountIntoPriorityQueue_perm pq account) as (r & Hins & Hperm).
  pose proof (insertAccountIntoPriorityQueue_heap _ _ _ Hins) as Hheap.
  destruct r as [|top r].
  { by apply Permutation_nil_cons in Hperm. }
  exists (top :: r), top. split_and!; [done..|].
  intros x Hx. rewrite <- Hperm in Hx.
  by eapply (heap_ordered_root_min tokens).
Qed.

Lemma insertAccountIntoPriorityQueue_sound_witness :
  ∃ r top,
    insertAccountIntoPriorityQueue
      [sample "D" "user" 40 2 20; sample "B" "user" 20 1 10] (sample "C" "user" 30 2 20)
    = Some r ∧
    pq_top r = Some top ∧ tokens top <= 20.
Proof.
  destruct (insertAccountIntoPriorityQueue_sound
              [sample "D" "user" 40 2 20; sample "B" "user" 20 1 10]
              (sample "C" "user" 30 2 20)) as (r & top & Hins & _ & _ & Htop & Hmin).
  exists r, top. split; [exact Hins|]. split; [exact Htop|].
  apply (Hmin (sample "B" "user" 20 1 10)).
  do 2 (apply elem_of_cons; right). apply elem_of_head.
Defined.

(** X8. [removeAccountFromPriorityQueue] is undefined exactly when no
    entry carries the id of the account (its middle [pq.pop()] then runs
    on an empty queue); otherwise it takes out exactly one entry, which
    carries that id, and returns a heap of the others. *)
Theorem removeAccountFromPriorityQueue_sound (pq : PQ) account :
  (removeAccountFromPriorityQueue pq account = None ↔
   ∀ e, e ∈ pq -> id e ≠ id account) ∧
  ∀ r, removeAccountFromPriorityQueue pq account = Some r ->
       pq_heap r ∧ ∃ e, id e = id account ∧ pq ≡ₚ e :: r.
Proof.
  assert (∀ r, removeAccountFromPriorityQueue pq account = Some r -> pq_heap r)
    as Hheap.
  { intros r. unfold removeAccountFromPriorityQueue. intros Heq.
    destruct (drain_while _ _ pq []) as [[pq1 temp1]|] eqn:H1; [|done].
    simpl in Heq. destruct (pq_pop pq1) as [pq2|]; [|done]. simpl in Heq.
    destruct (drain_while _ _ pq2 temp1) as [[pq3 temp2]|] eqn:H2; [|done].
    simpl in Heq. simplify_eq.
    eapply drain_while_heap; [done|].
    eapply drain_while_heap; [done|]. apply heap_ordered_nil. }
  destruct (decide (Exists (λ e, id e = id account) pq)) as [Hex|Hno].
  - apply Exists_exists in Hex as (e & He & Hid).
    destruct (removeAccountFromPriorityQueue_spec pq account) as (r & e' & Hrm & Hid' & Hperm).
    { by exists e. }
    split.
    + rewrite Hrm. split; [done|]. intros Hall. by destruct (Hall e He).
    + intros r' Hr'. split; [by apply Hheap|].
      rewrite Hrm in Hr'. simplify_eq. by exists e'.
  - assert (∀ e, e ∈ pq -> id e ≠ id account) as Hall.
    { intros e He Hid. apply Hno, Exists_exists. by exists e. }
    assert (removeAccountFromPriorityQueue pq account = None) as Hnone.
    { unfold removeAccountFromPriorityQueue.
      destruct (drain_while_spec (length pq)
                  (λ t, bool_decide (id t ≠ id account)) pq [])
        as (pq1 & temp1 & moved & -> & Hpq & _ & _ & Htop); [done|]. simpl.
      destruct pq1 as [|x pq1]; [done|]. exfalso.
      simpl in Htop. apply bool_decide_eq_false in Htop. apply Htop, Hall.
      rewrite Hpq. apply elem_of_app. right. apply elem_of_head. }
    split; [done|]. intros r Hr. by rewrite Hnone in Hr.
Qed.

Lemma removeAccountFromPriorityQueue_sound_witness :
  removeAccountFromPriorityQueue (ranked state_three "user")
    (sample "Z" "user" 0 0 0) = None.
Proof.
  apply (removeAccountFromPriorityQueue_sound (ranked state_three "user")
           (sample "Z" "user" 0 0 0)).
  intros e He. vm_compute in He.
  repeat (apply elem_of_cons in He as [->|He]); try done.
  by apply elem_of_nil in He.
Defined.

(** X9. Removing an account right after inserting it gives back the
    entries the queue had, when no old entry carries its id. *)
Theorem insert_then_remove_restores (pq r : PQ) account :
  Forall (λ e, id e ≠ id account) pq ->
  insertAccountIntoPriorityQueue pq account = Some r ->
  ∃ r', removeAccountFromPriorityQueue r account = Some r' ∧ r' ≡ₚ pq.
Proof.
  intros Hfresh Hins. rewrite Forall_forall in Hfresh.
  destruct (insertAccountIntoPriorityQueue_perm pq account) as (r0 & Hins0 & Hperm).
  rewrite Hins in Hins0. simplify_eq.
  destruct (removeAccountFromPriorityQueue_spec r0 account) as (r' & e & Hrm & Hid & Hp).
  { exists account. split; [|done]. rewrite Hperm. apply elem_of_head. }
  exists r'. split; [done|].
  assert (e ∈ account :: pq) as He.
  { rewrite <- Hperm, Hp. apply elem_of_head. }
  apply elem_of_cons in He as [->|He]; [|by destruct (Hfresh e He)].
  apply (Permutation_cons_inv (a := account)). by rewrite <- Hp, Hperm.
Qed.

Lemma insert_then_remove_restores_witness :
  ∃ r r', insertAccountIntoPriorityQueue (ranked state_three "user")
            (sample "E" "user" 25 1 5) = Some r ∧
          removeAccountFromPriorityQueue r (sample "E" "user" 25 1 5) = Some r' ∧
          r' ≡ₚ ranked state_three "user".
Proof.
  destruct (insertAccountIntoPriorityQueue_perm (ranked state_three "user")
              (sample "E" "user" 25 1 5)) as (r & Hins & _).
  destruct (insert_then_remove_restores (ranked state_three "user") r
              (sample "E" "user" 25 1 5)) as (r' & Hrm & Hperm).
  - vm_compute. repeat constructor; done.
  - done.
  - exists r, r'. split; [exact Hins|]. split; [exact Hrm | exact Hperm].
Defined.

(** * Further properties of the rankings *)

Lemma accept_ranking_heap now jitter account m m' :
  accept now jitter account m = Some m' ->
  ∃ pq2, pq_heap pq2 ∧
         highestTokenAccounts (accountIndexer m')
         = <[accountType account := pq2]> (highestTokenAccounts (accountIndexer m)).
Proof.
  unfold accept. cbn [indexAccount highestTokenAccounts]. intros Heq.
  destruct (insertAccountIntoPriorityQueue _ account) as [pq1|] eqn:Hins; [|done].
  pose proof (insertAccountIntoPriorityQueue_heap _ _ _ Hins) as Hheap.
  cbn [mbind option_bind] in Heq.
  destruct (K <? length pq1)%nat.
  - destruct (pq_pop pq1) as [pq2|] eqn:Hpop; [|done].
    cbn [mbind option_bind] in Heq. simplify_eq.
    exists pq2. split; [by eapply pq_pop_heap|done].
  - cbn [mbind option_bind] in Heq. simplify_eq. by exists pq1.
Qed.

Lemma ingestAccountUpdate_rankings_heap now jitter account m m' :
  rankings_heap m ->
  ingestAccountUpdate now jitter account m = Some m' -> rankings_heap m'.
Proof.
  intros Hok Hing.
  destruct (ingestAccountUpdate_cases now jitter account m)
    as [[_ Heq]|[(e & _ & _ & _ & Heq)|(e & e' & r & _ & _ & _ & _ & _ & Heq)]];
    rewrite Heq in Hing; clear Heq.
  - apply accept_ranking_heap in Hing as (pq2 & Hheap & Hrk).
    intros c pq Hpq. rewrite Hrk in Hpq.
    apply lookup_insert_Some in Hpq as [[_ <-]|[_ Hpq]]; [done|by eapply Hok].
  - by simplify_eq.
  - destruct (cancelCallback e (callbackManager m)) as [cm1|]; [|done].
    simpl in Hing.
    apply accept_ranking_heap in Hing as (pq2 & Hheap & Hrk).
    intros c pq Hpq. rewrite Hrk in Hpq. cbn [superseded accountIndexer highestTokenAccounts] in Hpq.
    apply lookup_insert_Some in Hpq as [[_ <-]|[Hne Hpq]]; [done|].
    rewrite lookup_insert_ne in Hpq by done. by eapply Hok.
Qed.

Lemma run_rankings_heap ss m m' :
  rankings_heap m -> run ss m = Some m' -> rankings_heap m'.
Proof.
  revert m. induction ss as [|s ss IH]; intros m Hok Hrun; simpl in Hrun.
  - by simplify_eq.
  - destruct (step s m) as [m1|] eqn:Hstep; [|done]. simpl in Hrun.
    eapply IH; [|done]. destruct s as [now jitter account|t].
    + by eapply ingestAccountUpdate_rankings_heap.
    + intros c pq Hpq. rewrite (step_sweep_indexer _ _ _ Hstep) in Hpq.
      by eapply Hok.
Qed.

(** X10. After any run every ranking queue is a heap: [top()] of a
    ranking is an entry of least tokens, the one the next overflow
    evicts. *)
Theorem ranking_top_is_least ss m accType pq :
  run ss emptyManager = Some m ->
  highestTokenAccounts (accountIndexer m) !! accType = Some pq ->
  pq_heap pq ∧
  ∀ top x, pq_top pq = Some top -> x ∈ pq -> tokens top <= tokens x.
Proof.
  intros Hrun Hpq.
  assert (pq_heap pq) as Hheap.
  { eapply (run_rankings_heap ss emptyManager m); [|done..].
    intros c q Hq. done. }
  split; [done|]. intros top x Htop Hx. destruct pq as [|y pq]; [done|].
  simpl in Htop. simplify_eq. by eapply (heap_ordered_root_min tokens).
Qed.

Lemma ranking_top_is_least_witness :
  ∃ top, pq_top (ranked state_four "user") = Some top ∧
         Forall (λ x, tokens top <= tokens x) (ranked state_four "user").
Proof.
  destruct (ranking_top_is_least stream_four state_four "user"
              (ranked state_four "user")) as [_ Hmin]; [by vm_compute..|].
  destruct (pq_top (ranked state_four "user")) as [top|] eqn:Htop;
    [|vm_compute in Htop; discriminate].
  exists top. split; [reflexivity|].
  apply Forall_forall. intros x Hx. exact (Hmin top x eq_refl Hx).
Defined.

Lemma ascending_cons l lines :
  (∀ l2, l2 ∈ lines -> l.2 <= l2.2) -> ascending lines -> ascending (l :: lines).
Proof.
  intros Hl Hasc i j l1 l2 Hij H1 H2. destruct j as [|j]; [lia|].
  simpl in H2. destruct i as [|i].
  - simpl in H1. simplify_eq. apply Hl. by eapply list_elem_of_lookup_2.
  - simpl in H1. apply (Hasc i j); [lia|done..].
Qed.

Lemma print_queue_heap fuel (pq : PQ) :
  (length pq <= fuel)%nat -> pq_heap pq ->
  ∃ lines, print_queue fuel pq = Some lines ∧
           lines ≡ₚ line <$> pq ∧ ascending lines.
Proof.
  revert pq. induction fuel as [|fuel IH]; intros pq Hlen Hheap.
  { destruct pq; [|simpl in Hlen; lia]. exists []. split_and!; [done..|].
    intros i j l1 l2 _ H1. done. }
  cbn [print_queue]. destruct pq as [|x pq]; cbn [pq_top head].
  { exists []. split_and!; [done..|]. intros i j l1 l2 _ H1. done. }
  destruct (pq_pop_cons x pq) as (r & Hpop & Hr). rewrite Hpop. simpl.
  destruct (IH r) as (rest & -> & Hperm & Hasc).
  { rewrite Hr. simpl in Hlen. lia. }
  { by eapply pq_pop_heap. }
  simpl. exists (line x :: rest). split_and!; [done | | ].
  - change (line <$> x :: pq) with (line x :: (line <$> pq)).
    f_equiv. by rewrite Hperm, Hr.
  - apply ascending_cons; [|done]. intros l2 Hl2.
    rewrite Hperm in Hl2. apply list_elem_of_fmap in Hl2 as (y & -> & Hy).
    simpl. eapply (heap_ordered_root_min tokens); [done | done |].
    apply elem_of_cons. right. by rewrite <- Hr.
Qed.

(** X11. After any run [printHighestTokenValueAccounts] is defined and
    prints, for every account type of the map and in the map's order,
    the entries of its ranking, each once, in non-decreasing order of
    tokens: the account with the least tokens comes first. *)
Theorem printHighestTokenValueAccounts_ascending ss m :
  run ss emptyManager = Some m ->
  ∃ out,
    printHighestTokenValueAccounts m = Some out ∧
    Forall2 (λ (kv : string * PQ) (o : string * list (string * Z * Z)),
               o.1 = kv.1 ∧ o.2 ≡ₚ line <$> kv.2 ∧ ascending o.2)
            (map_to_list (highestTokenAccounts (accountIndexer m))) out.
Proof.
  intros Hrun.
  assert (rankings_heap m) as Hheap.
  { eapply (run_rankings_heap ss emptyManager m); [|done]. intros c q Hq. done. }
  unfold printHighestTokenValueAccounts.
  assert (Forall (λ kv : string * PQ, pq_heap kv.2)
            (map_to_list (highestTokenAccounts (accountIndexer m)))) as Hall.
  { apply Forall_forall. intros [c pq] Hin. apply elem_of_map_to_list in Hin.
    by eapply Hheap. }
  induction Hall as [|kv l Hkv Hall IH].
  { exists []. split; [done|constructor]. }
  destruct IH as (out & Hout & Hrel).
  destruct (print_queue_heap (length kv.2) kv.2) as (lines & Hlines & Hperm & Hasc);
    [done..|].
  exists ((kv.1, lines) :: out). split.
  - rewrite mapM_Some. constructor.
    + by rewrite Hlines.
    + by apply mapM_Some.
  - by constructor.
Qed.

Lemma printHighestTokenValueAccounts_ascending_witness :
  ∃ out, printHighestTokenValueAccounts state_four = Some out ∧
         Forall2 (λ (kv : string * PQ) (o : string * list (string * Z * Z)),
                    o.1 = kv.1 ∧ o.2 ≡ₚ line <$> kv.2 ∧ ascending o.2)
                 (map_to_list (highestTokenAccounts (accountIndexer state_four))) out.
Proof.
  apply (printHighestTokenValueAccounts_ascending stream_four state_four).
  by vm_compute.
Defined.

(** * Further properties of [ingestAccountUpdate] *)

(** X12. After any run every ledger entry is an update the run has
    ingested, stored under its own (id, version). *)
Theorem ledger_entries_are_ingested_updates ss m k x :
  run ss emptyManager = Some m ->
  indexedAccounts (accountIndexer m) !! k = Some x ->
  k = key_of x ∧ x ∈ ingested ss.
Proof. apply run_ledger_keys. Qed.

Lemma ledger_entries_are_ingested_updates_witness :
  ("A", 5) = key_of (sample "A" "user" 1 5 5) ∧
  sample "A" "user" 1 5 5 ∈ ingested stream_five.
Proof.
  apply (ledger_entries_are_ingested_updates stream_five state_five);
    by vm_compute.
Defined.

(** X13. An update leaves alone every ledger key of another identifier
    and the ranking of every other account type. *)
Theorem ingestAccountUpdate_frame now jitter account m m' :
  ingestAccountUpdate now jitter account m = Some m' ->
  (∀ k : AccountKey, k.1 ≠ id account ->
     indexedAccounts (accountIndexer m') !! k = indexedAccounts (accountIndexer m) !! k) ∧
  (∀ accType, accType ≠ accountType account ->
     highestTokenAccounts (accountIndexer m') !! accType
     = highestTokenAccounts (accountIndexer m) !! accType).
Proof.
  intros Hing.
  apply ingestAccountUpdate_ledger in Hing
    as [[-> _]|(pq2 & cm1 & [(Hl & _)|(e & r & Hl & _ & Hid & _)] & Hrk & _)].
  - done.
  - split.
    + intros k Hk. rewrite Hl. apply lookup_insert_ne.
      intros <-. by apply Hk.
    + intros c Hc. rewrite Hrk. by apply lookup_insert_ne.
  - split.
    + intros k Hk. rewrite Hl. rewrite lookup_insert_ne by (intros <-; by apply Hk).
      apply lookup_delete_ne. intros <-. by apply Hk.
    + intros c Hc. rewrite Hrk. by apply lookup_insert_ne.
Qed.

Lemma ingestAccountUpdate_frame_witness :
  indexedAccounts (accountIndexer state_two_ids_next) !! ("account2", 1)
  = indexedAccounts (accountIndexer state_two_ids) !! ("account2", 1).
Proof.
  destruct (ingestAccountUpdate_frame 0 0 (sample "account1" "user" 50 3 1000)
              state_two_ids state_two_ids_next) as [Hledger _].
  - by vm_compute.
  - by apply (Hledger ("account2", 1)).
Defined.

(** X14. An update that is not dropped as stale is, right after its
    ingestion, in the ledger under its (id, version), pending in the
    callback vector with its fire time, and recorded in the index at the
    slot where [scheduleCallback] appended it. *)
Theorem accepted_update_is_stored_and_scheduled now jitter account m m' :
  ingestAccountUpdate now jitter account m = Some m' ->
  (m' = m ∧ ∃ e, e ∈ ranked m (accountType account) ∧ id e = id account ∧
                 version account <= version e) ∨
  (indexedAccounts (accountIndexer m') !! key_of account = Some account ∧
   (fireTime now jitter account, account) ∈ callbacks (callbackManager m') ∧
   indexMap (callbackManager m') !! id account
   = Some (length (callbacks (callbackManager m')) - 1)%nat).
Proof.
  intros Hing.
  apply ingestAccountUpdate_ledger in Hing
    as [Hstale|(pq2 & cm1 & Hl & _ & Hcm)]; [by left|right].
  split_and!.
  - destruct Hl as [(-> & _)|(e & r & -> & _)]; by rewrite lookup_insert_eq.
  - rewrite Hcm, scheduleCallback_callbacks. apply elem_of_head.
  - rewrite Hcm, scheduleCallback_indexMap, scheduleCallback_callbacks.
    rewrite lookup_insert_eq. f_equal. simpl. lia.
Qed.

Lemma accepted_update_is_stored_and_scheduled_witness :
  indexedAccounts (accountIndexer state_two_ids_next) !! ("account1", 3)
  = Some (sample "account1" "user" 50 3 1000).
Proof.
  destruct (accepted_update_is_stored_and_scheduled 0 0
              (sample "account1" "user" 50 3 1000) state_two_ids state_two_ids_next)
    as [[_ (e & He & _ & Hv)]|(Hl & _)].
  - by vm_compute.
  - exfalso. vm_compute in He.
    repeat (apply elem_of_cons in He as [->|He]); simpl in Hv; try lia.
    by apply elem_of_nil in He.
  - exact Hl.
Defined.

(** X15. One update never lowers the version that a ranking holds for
    an identifier: an entry ranked before and an entry of the same id
    ranked after, under the same account type, have versions in that
    order. *)
Theorem ranked_version_never_decreases ss m now jitter account m' accType e e' :
  run ss emptyManager = Some m ->
  ingestAccountUpdate now jitter account m = Some m' ->
  e ∈ ranked m accType -> e' ∈ ranked m' accType -> id e = id e' ->
  version e <= version e'.
Proof.
  intros Hrun Hing He He' Hid.
  pose proof (run_ranking_ok ss _ _ emptyManager_ranking_ok Hrun) as Hok.
  destruct (ranked_ok m accType Hok) as (_ & Hnd & _).
  assert (∀ y, y ∈ ranked m accType -> id y = id e -> y = e) as Huniq.
  { intros y Hy Hidy. by eapply NoDup_fmap_eq. }
  apply ingestAccountUpdate_ledger in Hing
    as [[-> _]|(pq2 & cm1 & Hpath & Hrk & _)].
  { rewrite (Huniq e' He') by done. lia. }
  unfold ranked, ranked_in in He'. rewrite Hrk in He'.
  destruct (decide (accountType account = accType)) as [<-|Hne].
  2:{ rewrite lookup_insert_ne in He' by done.
      rewrite (Huniq e' He') by done. lia. }
  rewrite lookup_insert_eq in He'. simpl in He'.
  destruct Hpath as [(_ & Hfresh & _ & Hev)|(e0 & r & _ & He0 & Hid0 & Hv0 & _ & (e1 & Hid1 & Hperm) & Hev)].
  - apply (evicted_sub _ _ _ Hev), elem_of_cons in He' as [->|He'].
    + exfalso. apply (Hfresh e He). done.
    + rewrite (Huniq e' He') by done. lia.
  - apply (evicted_sub _ _ _ Hev), elem_of_cons in He' as [->|He'].
    + rewrite (Huniq e0 He0) in Hv0 by congruence. lia.
    + assert (e' ∈ ranked m (accountType account)) as He'm.
      { rewrite Hperm. apply elem_of_cons. by right. }
      rewrite (Huniq e' He'm) by done. lia.
Qed.

Lemma ranked_version_never_decreases_witness :
  version (sample "account1" "user" 100 1 1000)
  <= version (sample "account1" "user" 50 3 1000).
Proof.
  apply (ranked_version_never_decreases stream_two_ids state_two_ids 0 0
           (sample "account1" "user" 50 3 1000) state_two_ids_next "user").
  - by vm_compute.
  - by vm_compute.
  - vm_compute.
    first [apply elem_of_head | apply elem_of_cons; right; apply elem_of_head].
  - vm_compute.
    first [apply elem_of_head | apply elem_of_cons; right; apply elem_of_head].
  - done.
Defined.

(** * Keep-highest-K for distinct identifiers *)

Lemma of_type_snoc accType seen a :
  of_type accType (seen ++ [a])
  = if decide (accountType a = accType) then of_type accType seen ++ [a]
    else of_type accType seen.
Proof.
  unfold of_type. rewrite filter_app.
  rewrite filter_cons, filter_nil. case_decide; [done|by rewrite app_nil_r].
Qed.

Lemma of_type_elem accType seen x :
  x ∈ of_type accType seen ↔ accountType x = accType ∧ x ∈ seen.
Proof. unfold of_type. by rewrite list_elem_of_filter. Qed.

Lemma holds_highest_insert seen_c pq a pq2 :
  holds_highest seen_c pq ->
  NoDup (id <$> seen_c ++ [a]) ->
  evicted (a :: pq) pq2 ->
  holds_highest (seen_c ++ [a]) pq2.
Proof.
  intros (Hlen & Hnd & Hsub & Hlow) Hnds Hev.
  pose proof Hnds as Hndall.
  rewrite fmap_app in Hnds. apply NoDup_app in Hnds as (Hnds & Hdisj & _).
  assert (a ∉ pq) as Hapq.
  { intros Ha. apply (Hdisj (id a)).
    - apply list_elem_of_fmap_2, Hsub, Ha.
    - simpl. apply elem_of_head. }
  assert (NoDup (id <$> a :: pq)) as Hnd1.
  { rewrite fmap_cons. apply NoDup_cons. split; [|done].
    intros Hin. apply list_elem_of_fmap in Hin as (e & Hid & He).
    apply (Hdisj (id e)); [by apply list_elem_of_fmap_2, Hsub|].
    rewrite <- Hid. simpl. apply elem_of_head. }
  assert (NoDup pq) as Hndpq by (by eapply NoDup_fmap_1).
  assert (NoDup seen_c) as Hndseen by (by eapply NoDup_fmap_1).
  unfold holds_highest. rewrite length_app. cbn [length]. unfold K in *.
  destruct Hev as [[Hle Hp]|[Hgt (e & Hp & Hmin)]].
  - simpl in Hle. unfold K in Hle.
    assert (length pq = length seen_c) as Hfull by lia.
    assert (pq ≡ₚ seen_c) as Hall.
    { apply submseteq_length_Permutation; [|lia].
      by apply NoDup_submseteq. }
    split_and!.
    + rewrite Hp. cbn [length]. lia.
    + by rewrite Hp.
    + intros x Hx. rewrite Hp in Hx. apply elem_of_cons in Hx as [->|Hx].
      * apply elem_of_snoc_new.
      * by apply elem_of_snoc_old, Hsub.
    + intros s x Hs Hns Hx. exfalso. apply Hns. rewrite Hp.
      apply elem_of_app in Hs as [Hs|Hs].
      * apply elem_of_cons. right. by rewrite Hall.
      * apply list_elem_of_singleton in Hs as ->. apply elem_of_head.
  - simpl in Hgt. unfold K in Hgt.
    assert (length pq2 = 3%nat) as Hlen2.
    { apply Permutation_length in Hp. simpl in Hp. lia. }
    assert (∀ x, x ∈ pq2 -> x ∈ a :: pq) as Hsub2.
    { intros x Hx. rewrite Hp. apply elem_of_cons. by right. }
    assert (NoDup (id <$> e :: pq2)) as Hnd2 by (by rewrite <- Hp).
    rewrite fmap_cons in Hnd2. apply NoDup_cons in Hnd2 as [Hepq2 Hnd2].
    assert (∀ s, s ∈ a :: pq -> s ∉ pq2 -> s = e) as Hout.
    { intros s Hs Hns. rewrite Hp in Hs.
      by apply elem_of_cons in Hs as [->|Hs]. }
    split_and!.
    + lia.
    + done.
    + intros x Hx. apply Hsub2, elem_of_cons in Hx as [->|Hx].
      * apply elem_of_snoc_new.
      * by apply elem_of_snoc_old, Hsub.
    + intros s x Hs Hns Hx.
      pose proof (Hmin x (Hsub2 x Hx)) as Hex.
      assert (s ∈ a :: pq ∨ s ∉ a :: pq) as [Hin|Hnin].
      { destruct (decide (id s ∈ id <$> a :: pq)) as [Hi|Hi].
        - left. apply list_elem_of_fmap in Hi as (y & Hid & Hy).
          assert (y ∈ seen_c ++ [a]) as Hys.
          { apply elem_of_cons in Hy as [->|Hy];
              [apply elem_of_snoc_new | by apply elem_of_snoc_old, Hsub]. }
          by rewrite (NoDup_fmap_eq id _ s y Hndall Hs Hys Hid).
        - right. intros Hin. apply Hi. by apply list_elem_of_fmap_2. }
      { rewrite (Hout s Hin Hns). done. }
      apply elem_of_app in Hs as [Hs|Hs].
      2:{ apply list_elem_of_singleton in Hs as ->. destruct Hnin. apply elem_of_head. }
      assert (s ∉ pq) as Hspq.
      { intros H. apply Hnin. apply elem_of_cons. by right. }
      pose proof Hx as Hx2.
      apply Hsub2, elem_of_cons in Hx as [->|Hx]; [|by apply (Hlow s x)].
      assert (e ∈ a :: pq) as He by (rewrite Hp; apply elem_of_head).
      apply elem_of_cons in He as [->|He].
      * exfalso. apply Hepq2. by apply list_elem_of_fmap_2.
      * pose proof (Hlow s e Hs Hspq He). pose proof (Hmin a (elem_of_head _ _)). lia.
Qed.

Lemma holds_highest_step seen m0 m1 now jitter a :
  True ->
  (NoDup (id <$> seen) ->
   ∀ c, holds_highest (of_type c seen) (ranked_in (accountIndexer m0) c)) ->
  ingestAccountUpdate now jitter a m0 = Some m1 ->
  NoDup (id <$> seen ++ [a]) ->
  ∀ c, holds_highest (of_type c (seen ++ [a])) (ranked_in (accountIndexer m1) c).
Proof.
  intros _ Hinv Hing Hnd c.
  assert (NoDup (id <$> seen)) as Hnd0.
  { rewrite fmap_app in Hnd. by apply NoDup_app in Hnd as (? & _). }
  specialize (Hinv Hnd0).
  assert (∀ e, e ∈ ranked m0 (accountType a) -> id e ≠ id a) as Hfresh.
  { intros e He Hid. destruct (Hinv (accountType a)) as (_ & _ & Hsub & _).
    apply Hsub, of_type_elem in He as [_ He].
    rewrite fmap_app in Hnd. apply NoDup_app in Hnd as (_ & Hdisj & _).
    apply (Hdisj (id e)); [by apply list_elem_of_fmap_2|].
    rewrite Hid. simpl. apply elem_of_head. }
  apply ingestAccountUpdate_ledger in Hing
    as [[_ (e & He & Hid & _)]|(pq2 & cm1 & [(_ & _ & _ & Hev)|(e & r & _ & He & Hid & _)] & Hrk & _)];
    [by destruct (Hfresh e He) | | by destruct (Hfresh e He)].
  unfold ranked_in. rewrite Hrk, of_type_snoc.
  case_decide as Hc.
  - subst c. rewrite lookup_insert_eq. simpl.
    apply holds_highest_insert with (pq := ranked m0 (accountType a)); [apply Hinv | | done].
    rewrite fmap_app in Hnd |- *. apply NoDup_app in Hnd as (Hn1 & Hdisj & Hn2).
    apply NoDup_app. split_and!; [|  | done].
    + unfold of_type. apply (NoDup_fmap_2_strong id).
      * intros x y Hx Hy Hxy. apply list_elem_of_filter in Hx as [_ Hx].
        apply list_elem_of_filter in Hy as [_ Hy]. by eapply NoDup_fmap_eq.
      * apply NoDup_filter. by eapply NoDup_fmap_1.
    + intros i Hi. apply Hdisj. apply list_elem_of_fmap in Hi as (x & -> & Hx).
      apply of_type_elem in Hx as [_ Hx]. by apply list_elem_of_fmap_2.
  - rewrite lookup_insert_ne by done. apply Hinv.
Qed.

(** X16. In a run whose updates carry pairwise distinct identifiers,
    every ranking ends with the K = 3 updates of highest tokens of its
    account type (all of them when there are fewer): the ranking holds
    min(3, n) of the n updates of the type, and no update of the type
    that is left out has more tokens than a ranked one. *)
Theorem ranking_keeps_highest_tokens ss m accType :
  NoDup (id <$> ingested ss) ->
  run ss emptyManager = Some m ->
  holds_highest (of_type accType (ingested ss)) (ranked m accType).
Proof.
  intros Hnd Hrun.
  pose proof (run_indexer_ind (λ _, True)
                (λ seen ix, NoDup (id <$> seen) ->
                            ∀ c, holds_highest (of_type c seen) (ranked_in ix c))
                holds_highest_step ss [] emptyManager m) as Hind.
  cbn beta in Hind. rewrite app_nil_l in Hind.
  apply Hind; [by apply Forall_true | | done | done].
  intros _ c. unfold holds_highest, of_type, ranked_in. cbn.
  split_and!; [done | constructor | |].
  - intros x Hx. by apply elem_of_nil in Hx.
  - intros s x Hs. by apply elem_of_nil in Hs.
Qed.

Lemma ranking_keeps_highest_tokens_witness :
  holds_highest (of_type "user" (ingested stream_four)) (ranked state_four "user").
Proof.
  apply (ranking_keeps_highest_tokens stream_four state_four "user").
  - apply (bool_decide_unpack _). by vm_compute.
  - by vm_compute.
Defined.

(** * Further properties of the query and of the driver loop *)

(** X17. [searchAndFilterAccounts] with a lower bound above the upper
    bound returns nothing, whatever the ledger holds. *)
Theorem searchAndFilterAccounts_empty_range m accType minTokens maxTokens :
  maxTokens < minTokens ->
  searchAndFilterAccounts accType minTokens maxTokens m = [].
Proof.
  intros Hlt. unfold searchAndFilterAccounts.
  destruct (filter _ _) as [|x l] eqn:Hf; [done|]. exfalso.
  assert (x ∈ x :: l) as Hx by apply elem_of_head.
  rewrite <- Hf in Hx. apply list_elem_of_filter in Hx as [[_ Hb] _]. lia.
Qed.

Lemma searchAndFilterAccounts_empty_range_witness :
  searchAndFilterAccounts "user" 400 200 state_five = [].
Proof. apply searchAndFilterAccounts_empty_range. lia. Defined.

(** X18. After any run [searchAndFilterAccounts] returns no snapshot
    twice, and every snapshot it returns is an update the run has
    ingested. *)
Theorem searchAndFilterAccounts_no_repeats ss m accType minTokens maxTokens :
  run ss emptyManager = Some m ->
  NoDup (searchAndFilterAccounts accType minTokens maxTokens m) ∧
  ∀ a, a ∈ searchAndFilterAccounts accType minTokens maxTokens m ->
       a ∈ ingested ss.
Proof.
  intros Hrun. unfold searchAndFilterAccounts. split.
  - apply NoDup_filter, NoDup_fmap_2_strong; [|apply NoDup_map_to_list].
    intros [k1 x1] [k2 x2] H1 H2 Heq. simpl in Heq. subst x2.
    apply elem_of_map_to_list in H1, H2.
    destruct (run_ledger_keys ss m k1 x1 Hrun H1) as [-> _].
    destruct (run_ledger_keys ss m k2 x1 Hrun H2) as [-> _]. done.
  - intros a Ha. apply list_elem_of_filter in Ha as [_ Ha].
    apply list_elem_of_fmap in Ha as ([k x] & -> & Hin).
    apply elem_of_map_to_list in Hin.
    by destruct (run_ledger_keys ss m k x Hrun Hin).
Qed.

Lemma searchAndFilterAccounts_no_repeats_witness :
  NoDup (searchAndFilterAccounts "user" 0 10 state_five).
Proof.
  destruct (searchAndFilterAccounts_no_repeats stream_five state_five "user" 0 10)
    as [Hnd _]; [by vm_compute | exact Hnd].
Defined.

(** The indexer that an update leaves depends on the indexer before and
    on the account only: not on the clock, the jitter or the callback
    manager. *)
Lemma ingestAccountUpdate_indexer_indep now1 jitter1 now2 jitter2 account m1 m2 m1' m2' :
  accountIndexer m1 = accountIndexer m2 ->
  ingestAccountUpdate now1 jitter1 account m1 = Some m1' ->
  ingestAccountUpdate now2 jitter2 account m2 = Some m2' ->
  accountIndexer m1' = accountIndexer m2'.
Proof.
  intros Hix H1 H2. unfold ingestAccountUpdate in H1, H2.
  assert (∀ n1 j1 n2 j2 ma mb ma' mb',
            accountIndexer ma = accountIndexer mb ->
            accept n1 j1 account ma = Some ma' ->
            accept n2 j2 account mb = Some mb' ->
            accountIndexer ma' = accountIndexer mb') as Hacc.
  { intros n1 j1 n2 j2 ma mb ma' mb' Hab Ha Hb. unfold accept in Ha, Hb.
    rewrite <- Hab in Hb.
    destruct (insertAccountIntoPriorityQueue _ account) as [pq1|]; [|done].
    cbn [mbind option_bind] in Ha, Hb.
    destruct (if (K <? length pq1)%nat then pq_pop pq1 else Some pq1) as [pq2|];
      [|done].
    cbn [mbind option_bind] in Ha, Hb. by simplify_eq. }
  rewrite <- Hix in H2.
  destruct (highestTokenAccounts (accountIndexer m1) !! accountType account)
    as [pq|]; [|by eapply Hacc].
  destruct (scan_queue (length pq) pq (id account)) as [[found jt]|]; [|done].
  cbn [mbind option_bind] in H1, H2.
  destruct found; [|by eapply Hacc].
  destruct (pq_top jt) as [top|]; [|done]. cbn [mbind option_bind] in H1, H2.
  destruct (version account <=? version top); [by simplify_eq|].
  destruct (cancelCallback top (callbackManager m1)) as [cma|]; [|done].
  destruct (cancelCallback top (callbackManager m2)) as [cmb|]; [|done].
  cbn [mbind option_bind] in H1, H2.
  destruct (removeAccountFromPriorityQueue pq account) as [pq1|]; [|done].
  cbn [mbind option_bind] in H1, H2.
  eapply Hacc; [|done..]. cbn. by rewrite Hix.
Qed.

Lemma run_indexer_canonical ss m m' m0 :
  run ss m = Some m' ->
  accountIndexer m = accountIndexer m0 ->
  index_in_range (callbackManager m0) ->
  ∃ m0', run (Ingest 0 0 <$> ingested ss) m0 = Some m0' ∧
         accountIndexer m' = accountIndexer m0' ∧
         index_in_range (callbackManager m0').
Proof.
  revert m m0. induction ss as [|s ss IH]; intros m m0 Hrun Hix Hrange;
    simpl in Hrun.
  { simplify_eq. by exists m0. }
  destruct (step s m) as [m1|] eqn:Hs; [|done]. simpl in Hrun.
  destruct s as [now jitter a|t].
  - rewrite ingested_cons_ingest, fmap_cons. cbn [run step].
    destruct (ingestAccountUpdate_total 0 0 a m0 Hrange) as (m01 & Hing0 & Hrange1).
    rewrite Hing0. simpl.
    apply (IH m1 m01); [done| |done].
    by eapply ingestAccountUpdate_indexer_indep.
  - rewrite ingested_cons_sweep.
    apply (IH m1 m0); [done| |done].
    by rewrite (step_sweep_indexer _ _ _ Hs).
Qed.

Lemma ingested_processAccountUpdates accountUpdates :
  ingested (flat_map (λ '(account, now, jitter, sweepTime),
                        [Ingest now jitter account; Sweep sweepTime])
                     accountUpdates)
  = accounts_of accountUpdates.
Proof.
  induction accountUpdates as [|[[[a n] j] t] l IH]; [done|].
  cbn [flat_map app]. rewrite ingested_cons_ingest, ingested_cons_sweep, IH. done.
Qed.

(** X19. The ledger and the rankings that [processAccountUpdates]
    leaves depend only on the sequence of accounts it is given: two
    defined runs over the same accounts, with any clocks, jitters and
    sweeps, end with the same ledger and the same rankings. *)
Theorem processAccountUpdates_indexer_depends_on_accounts ups1 ups2 m1 m2 :
  accounts_of ups1 = accounts_of ups2 ->
  processAccountUpdates ups1 emptyManager = Some m1 ->
  processAccountUpdates ups2 emptyManager = Some m2 ->
  accountIndexer m1 = accountIndexer m2.
Proof.
  unfold processAccountUpdates. intros Hacc H1 H2.
  destruct (run_indexer_canonical _ _ _ emptyManager H1 eq_refl emptyManager_in_range)
    as (c1 & Hc1 & Hix1 & _).
  destruct (run_indexer_canonical _ _ _ emptyManager H2 eq_refl emptyManager_in_range)
    as (c2 & Hc2 & Hix2 & _).
  rewrite ingested_processAccountUpdates in Hc1, Hc2.
  rewrite Hacc in Hc1. rewrite Hc1 in Hc2. simplify_eq. congruence.
Qed.

Lemma processAccountUpdates_indexer_depends_on_accounts_witness :
  ∃ m1 m2,
    processAccountUpdates [(sample "A" "user" 1 1 5, 0, 0, 0);
                           (sample "B" "user" 2 1 5, 0, 0, 0)] emptyManager = Some m1 ∧
    processAccountUpdates [(sample "A" "user" 1 1 5, 10, 7, 12);
                           (sample "B" "user" 2 1 5, 20, 900, 25)] emptyManager = Some m2 ∧
    accountIndexer m1 = accountIndexer m2.
Proof.
  eexists _, _. split; [by vm_compute|]. split; [by vm_compute|].
  eapply (processAccountUpdates_indexer_depends_on_accounts
            [(sample "A" "user" 1 1 5, 0, 0, 0); (sample "B" "user" 2 1 5, 0, 0, 0)]
            [(sample "A" "user" 1 1 5, 10, 7, 12); (sample "B" "user" 2 1 5, 20, 900, 25)]);
    [done | by vm_compute | by vm_compute].
Defined.

(** X20. Whatever the run, every pending callback was scheduled by one
    of its [Ingest] steps: it carries the account of that step and the
    fire time [fireTime] computed there from the clock, the delay of the
    account and the jitter. Cancels and sweeps never put an entry in and
    never alter one. *)
Theorem pending_callbacks_come_from_ingests ss m c :
  run ss emptyManager = Some m ->
  c ∈ callbacks (callbackManager m) ->
  scheduled_by ss c.
Proof.
  revert m c. induction ss as [|s ss IH] using rev_ind; intros m c Hrun Hc.
  { simpl in Hrun. simplify_eq. by apply elem_of_nil in Hc. }
  rewrite run_app in Hrun.
  destruct (run ss emptyManager) as [m0|] eqn:Hrun0; [|done].
  cbn [mbind option_bind run] in Hrun.
  destruct (step s m0) as [m1|] eqn:Hs; [|done]. simpl in Hrun. simplify_eq.
  assert (∀ c, scheduled_by ss c -> scheduled_by (ss ++ [s]) c) as Hmono.
  { intros c' (now & jitter & Hin & Heq). exists now, jitter.
    split; [by apply elem_of_snoc_old|done]. }
  destruct s as [now jitter a|t]; simpl in Hs.
  - apply ingestAccountUpdate_ledger in Hs
      as [[-> _]|(pq2 & cm1 & Hpath & _ & Hcm)]; [by apply Hmono, (IH m0)|].
    rewrite Hcm, scheduleCallback_callbacks in Hc.
    apply elem_of_cons in Hc as [->|Hc].
    + exists now, jitter. split; [apply elem_of_snoc_new|done].
    + apply Hmono, (IH m0); [done|].
      destruct Hpath as [(_ & _ & -> & _)|(e & r & _ & _ & _ & _ & Hcancel & _)];
        [done|by eapply cancelCallback_callbacks_sub].
  - destruct (fireCallbacks t (callbackManager m0)) as [[cm evs]|] eqn:Hf; [|done].
    simpl in Hs. simplify_eq. cbn [callbackManager] in Hc.
    apply fireCallbacks_loop_sound in Hf as (fired & Hperm & _).
    apply Hmono, (IH m0); [done|]. rewrite Hperm. apply elem_of_app. by right.
Qed.

Lemma pending_callbacks_come_from_ingests_witness :
  scheduled_by stream_one_id (1007000005, sample "account1" "user" 50 3 1000).
Proof.
  apply (pending_callbacks_come_from_ingests stream_one_id state_one_id).
  - by vm_compute.
  - vm_compute. apply elem_of_head.
Defined.

(** * Composition of schedule and cancel, and an update evicted at once *)

Lemma push_heap_snoc_stays (cbs : list Callback) (v : Callback) :
  (∀ p, cbs !! parent (length cbs) = Some p -> fire_time p <= fire_time v) ->
  push_heap AccountTimeComparator (cbs ++ [v]) = cbs ++ [v].
Proof.
  intros Hpar. unfold push_heap, push_heap_aux. rewrite last_snoc, length_app.
  cbn [length]. replace (length cbs + 1 - 1)%nat with (length cbs) by lia.
  assert (<[length cbs := v]> (cbs ++ [v]) = cbs ++ [v]) as Hid.
  { apply list_insert_id. rewrite lookup_app_r by lia. by rewrite Nat.sub_diag. }
  destruct (length cbs) as [|n] eqn:Hn; cbn [push_heap_loop]; [done|].
  replace (0 <? S n)%nat with true by done.
  fold (parent (S n)).
  assert (parent (S n) < S n)%nat as Hlt by (apply parent_lt; lia).
  rewrite lookup_app_l by lia.
  destruct (cbs !! parent (S n)) as [p|] eqn:Hp; [|done].
  rewrite AccountTimeComparator_key.
  specialize (Hpar p eq_refl).
  replace (fire_time v <? fire_time p) with false; [done|].
  symmetry. apply Z.ltb_ge. done.
Qed.

(** X21. Scheduling a callback and cancelling it at once gives back the
    callback vector as it was, and an index without the id, provided the
    new entry is not moved by [push_heap]: the vector was empty or the
    entry at the parent slot does not fire later than the new entry. *)
Theorem schedule_then_cancel_restores account t cm :
  (∀ p, callbacks cm !! parent (length (callbacks cm)) = Some p -> fire_time p <= t) ->
  cancelCallback account (scheduleCallback account t cm)
  = Some (mkCallbackManager (callbacks cm) (delete (id account) (indexMap cm))).
Proof.
  intros Hpar.
  assert (callbacks (scheduleCallback account t cm) = callbacks cm ++ [(t, account)])
    as Hcbs.
  { unfold scheduleCallback. cbn [callbacks]. by apply push_heap_snoc_stays. }
  rewrite cancelCallback_last.
  - rewrite Hcbs, scheduleCallback_indexMap, length_app. cbn [length].
    replace (length (callbacks cm) + 1 - 1)%nat with (length (callbacks cm)) by lia.
    by rewrite take_app_length, delete_insert_eq.
  - rewrite Hcbs. by destruct (callbacks cm).
  - rewrite Hcbs, scheduleCallback_indexMap, lookup_insert_eq, length_app.
    cbn [length]. f_equal. lia.
Qed.

Lemma schedule_then_cancel_restores_witness :
  cancelCallback (sample "C" "user" 0 1 0)
    (scheduleCallback (sample "C" "user" 0 1 0) 7 two_pending)
  = Some (mkCallbackManager (callbacks two_pending)
                            (delete "C" (indexMap two_pending))).
Proof.
  apply (schedule_then_cancel_restores (sample "C" "user" 0 1 0) 7 two_pending).
  intros p Hp. vm_compute in Hp. simplify_eq. vm_compute. discriminate.
Defined.

(** X22. An update with a new identifier and fewer tokens than each of
    the three ranked accounts of its type is itself the one evicted: the
    ranking keeps its entries, yet the update is stored in the ledger
    and its callback is scheduled. *)
Theorem low_update_is_evicted_but_stored now jitter account m :
  length (ranked m (accountType account)) = 3%nat ->
  Forall (λ x, id x ≠ id account ∧ tokens account < tokens x)
         (ranked m (accountType account)) ->
  ∃ m',
    ingestAccountUpdate now jitter account m = Some m' ∧
    ranked m' (accountType account) ≡ₚ ranked m (accountType account) ∧
    indexedAccounts (accountIndexer m') !! key_of account = Some account ∧
    (fireTime now jitter account, account) ∈ callbacks (callbackManager m').
Proof.
  intros Hlen Hall. rewrite Forall_forall in Hall.
  destruct (ingestAccountUpdate_cases now jitter account m)
    as [[_ Heq]|[(e & He & Hid & _)|(e & e' & r & He & Hid & _)]];
    [| by destruct (Hall e He) | by destruct (Hall e He)].
  destruct (accept_spec now jitter account m) as (pq2 & Hev & Hacc).
  rewrite Heq, Hacc. eexists. split; [done|].
  destruct Hev as [[Hle _]|[_ (e & Hperm & Hmin)]].
  { simpl in Hle. unfold K in Hle. lia. }
  assert (e ∈ account :: ranked m (accountType account)) as He
    by (rewrite Hperm; apply elem_of_head).
  apply elem_of_cons in He as [->|He].
  2:{ destruct (Hall e He) as [_ Hlt].
      pose proof (Hmin account (elem_of_head _ _)). lia. }
  split_and!.
  - unfold ranked at 1, ranked_in. cbn. rewrite lookup_insert_eq. simpl.
    symmetry. by apply (Permutation_cons_inv (a := account)).
  - cbn. by rewrite lookup_insert_eq.
  - cbn [callbackManager]. rewrite scheduleCallback_callbacks. apply elem_of_head.
Qed.

Lemma low_update_is_evicted_but_stored_witness :
  ∃ m',
    ingestAccountUpdate 0 0 (sample "E" "user" 5 1 0) state_three = Some m' ∧
    ranked m' "user" ≡ₚ ranked state_three "user" ∧
    indexedAccounts (accountIndexer m') !! ("E", 1) = Some (sample "E" "user" 5 1 0).
Proof.
  destruct (low_update_is_evicted_but_stored 0 0 (sample "E" "user" 5 1 0) state_three)
    as (m' & Hing & Hperm & Hl & _).
  - by vm_compute.
  - vm_compute. repeat constructor; done.
  - exists m'. split; [exact Hing|]. split; [exact Hperm | exact Hl].
Defined.
